(** * The record-cleaning pipeline of [data_cleaning.py] and the statistics of
    [data_transformations.py], embedded and verified.

    Modelling conventions.
    - A Python [str] is the list of its Unicode code points.  Field names and
      the [method] selector are only ever compared for equality and are kept as
      plain strings.
    - A record is a [dict] from field names to values; the values of a record
      are [None], booleans, integers and strings.  Equality between them is
      Python's [==], under which [True == 1] and [False == 0].
    - Records are objects: a dataset is a list of references into a store, and
      the string-normalisation stage of [clean_dataset] writes through those
      references.
    - The numbers of the statistics functions ([List[float]]) are Python
      floats, IEEE 754 binary64, with the arithmetic of the interpreter: every
      operation rounds to nearest, a sum or a quotient that is too large is
      [inf], and [**] raises [OverflowError].  The built-in [sum] adds from
      the left and rounds at every step, as CPython does before version 3.12;
      [x ** 2] and [x ** 0.5] are taken as the rounded square and square
      root.  An int written in such a list ([10] for [10.0]) is the float of
      the same value.
    - Where a function only compares numbers, or reads a numeral, the numbers
      are real numbers.
    - A [set], and a dictionary whose keys are compared by [==], is the list
      of its members in the order they were added; functions passed as
      arguments (conditions, transformations, validators) are total and have
      no effect.
    - A pattern of [re] is a regular expression, matched by derivatives. *)

From Stdlib Require Import Reals Lra.
From Stdlib Require Import Ascii String.
From Stdlib Require Import Floats QArith.
From stdpp Require Import gmap strings list sorting.

Set Warnings "-inexact-float".

(** * Part I: the functions of the source *)

(** ** Python values, strings and records *)

Definition char := N.
Definition str := list char.

(** A string literal, as a [str]. *)
Definition py (s : string) : str :=
  N_of_ascii <$> list_ascii_of_string s.

Inductive value :=
  | VNone
  | VBool (b : bool)
  | VInt (z : Z)
  | VStr (s : str).

Global Instance value_eq_dec : EqDecision value.
Proof. solve_decision. Defined.

(** [bool] is a subclass of [int]: [True] is [1] and [False] is [0]. *)
Definition as_int (v : value) : option Z :=
  match v with
  | VBool b => Some (if b then 1 else 0)%Z
  | VInt z => Some z
  | _ => None
  end.

(** [a == b] on record values. *)
Definition py_eq (a b : value) : bool :=
  match a, b with
  | VNone, VNone => true
  | VStr s, VStr t => bool_decide (s = t)
  | _, _ =>
      match as_int a, as_int b with
      | Some x, Some y => bool_decide (x = y)
      | _, _ => false
      end
  end.

Abbreviation record := (gmap string value).
Definition loc := nat.
Abbreviation store := (gmap loc record).

(** The object a reference denotes. *)
Definition deref (h : store) (l : loc) : record := default ∅ (h !! l).

(** [record.get(key)]: [None] when the key is absent. *)
Definition dict_get (r : record) (key : string) : value := default VNone (r !! key).

(** [value in seen] for the [set] of values seen so far. *)
Definition seen_mem (v : value) (seen : list value) : bool :=
  existsb (py_eq v) seen.

(** ** Removing duplicates *)

(** [remove_duplicate_dicts] (data_cleaning.py, lines 26-35): the loop over
    [records], with the set [seen] as the list of the values added to it. *)
Fixpoint remove_duplicate_dicts_loop (h : store) (key : string)
    (seen : list value) (records : list loc) : list loc :=
  match records with
  | [] => []
  | record :: rest =>
      let value := dict_get (deref h record) key in
      if seen_mem value seen
      then remove_duplicate_dicts_loop h key seen rest
      else record :: remove_duplicate_dicts_loop h key (value :: seen) rest
  end.

Definition remove_duplicate_dicts (h : store) (records : list loc) (key : string)
  : list loc :=
  remove_duplicate_dicts_loop h key [] records.

(** ** Filtering records *)

Abbreviation criteria := (list (string * value)).

(** [filter_records_by_criteria] (data_cleaning.py, lines 62-73).  The inner
    loop: [criteria.items()] is walked in insertion order and left at the
    first mismatch. *)
Fixpoint criteria_match (r : record) (c : criteria) : bool :=
  match c with
  | [] => true
  | (key, value) :: rest =>
      if negb (py_eq (dict_get r key) value) then false
      else criteria_match r rest
  end.

Fixpoint filter_records_by_criteria (h : store) (records : list loc) (c : criteria)
  : list loc :=
  match records with
  | [] => []
  | record :: rest =>
      if criteria_match (deref h record) c
      then record :: filter_records_by_criteria h rest c
      else filter_records_by_criteria h rest c
  end.

(** ** Missing fields *)

(** [remove_records_with_missing_fields] (data_cleaning.py, lines 129-140).
    The test of one field:
    [field not in record or record[field] is None or record[field] == '']. *)
Definition field_missing (r : record) (field : string) : bool :=
  match r !! field with
  | None => true
  | Some v => bool_decide (v = VNone) || py_eq v (VStr [])
  end.

Fixpoint has_all_fields (r : record) (required_fields : list string) : bool :=
  match required_fields with
  | [] => true
  | field :: rest =>
      if field_missing r field then false else has_all_fields r rest
  end.

Fixpoint remove_records_with_missing_fields (h : store) (records : list loc)
    (required_fields : list string) : list loc :=
  match records with
  | [] => []
  | record :: rest =>
      if has_all_fields (deref h record) required_fields
      then record :: remove_records_with_missing_fields h rest required_fields
      else remove_records_with_missing_fields h rest required_fields
  end.

(** ** Whitespace *)

(** [clean_whitespace] (data_cleaning.py, lines 147-149) is
    [' '.join(text.split())].

    [str.isspace] on one code point, the characters [str.split()] separates
    on: tab to carriage return, the four separators U+001C to U+001F, space,
    U+0085, U+00A0, U+1680, U+2000 to U+200A, U+2028, U+2029, U+202F, U+205F
    and U+3000. *)
Definition isspace (c : char) : bool :=
  ((9 <=? c) && (c <=? 13) || (28 <=? c) && (c <=? 32)
   || (c =? 133) || (c =? 160) || (c =? 5760)
   || (8192 <=? c) && (c <=? 8202)
   || (c =? 8232) || (c =? 8233) || (c =? 8239) || (c =? 8287)
   || (c =? 12288))%N.

(** [text.split()]: maximal runs of non-space characters; [word] is the run
    being read. *)
Fixpoint split_from (word : str) (text : str) : list str :=
  match text with
  | [] => match word with [] => [] | _ => [word] end
  | c :: rest =>
      if isspace c
      then match word with
           | [] => split_from [] rest
           | _ => word :: split_from [] rest
           end
      else split_from (word ++ [c]) rest
  end.

Definition split (text : str) : list str := split_from [] text.

(** [sep.join(words)] *)
Fixpoint join (sep : str) (words : list str) : str :=
  match words with
  | [] => []
  | [w] => w
  | w :: rest => w ++ sep ++ join sep rest
  end.

Definition space : char := 32%N.

Definition clean_whitespace (text : str) : str := join [space] (split text).

(** ** The cleaning pipeline *)

(** The options [clean_dataset] (data_cleaning.py, lines 260-316) reads from
    its [config]; [None] is an absent key. *)
Record config := {
  cfg_remove_duplicates : option bool;
  cfg_duplicate_key : option string;
  cfg_required_fields : option (list string);
  cfg_string_fields : option (list string);
  cfg_filters : option criteria;
}.

(** Truth value of [config.get(k)] for a list- or dict-valued option: the
    value itself when it is present and non-empty. *)
Definition truthy_list {A} (o : option (list A)) : option (list A) :=
  match o with
  | Some (x :: l) => Some (x :: l)
  | _ => None
  end.

(** [config.get('remove_duplicates') and config.get('duplicate_key')] *)
Definition dedup_key (c : config) : option string :=
  match cfg_remove_duplicates c, cfg_duplicate_key c with
  | Some true, Some key => if bool_decide (key = "") then None else Some key
  | _, _ => None
  end.

(** [if field in record and isinstance(record[field], str):
       record[field] = clean_whitespace(record[field])] *)
Definition clean_field (r : record) (field : string) : record :=
  match r !! field with
  | Some (VStr s) => <[field := VStr (clean_whitespace s)]> r
  | _ => r
  end.

(** [for field in config['string_fields']: ...] on one record. *)
Definition clean_record (fields : list string) (r : record) : record :=
  foldl clean_field r fields.

(** [for record in results['cleaned_data']: ...]: every assignment goes
    through the reference, so the store changes. *)
Definition clean_string_fields (fields : list string) (h : store)
    (data : list loc) : store :=
  foldl (λ h record, alter (clean_record fields) record h) h data.

(** The built-in [len]. *)
Definition len {A} (l : list A) : Z := Z.of_nat (length l).

(** The dictionary [clean_dataset] returns. *)
Record results := {
  original_count : Z;
  cleaned_data : list loc;
  removed_duplicates : Z;
  removed_missing : Z;
  removed_invalid : Z;
  final_count : Z;
  total_removed : Z;
}.

(** [clean_dataset]: the store is threaded through, since the string stage
    writes to the records; [records.copy()] is a new list of the same
    references. *)
Definition clean_dataset (h : store) (records : list loc) (c : config)
  : store * results :=
  let original_count := len records in
  let cleaned_data := records in
  (* Remove duplicates *)
  let '(cleaned_data, removed_duplicates) :=
    match dedup_key c with
    | Some key =>
        let before := len cleaned_data in
        let cleaned_data := remove_duplicate_dicts h cleaned_data key in
        (cleaned_data, before - len cleaned_data)%Z
    | None => (cleaned_data, 0%Z)
    end in
  (* Remove records with missing required fields *)
  let '(cleaned_data, removed_missing) :=
    match truthy_list (cfg_required_fields c) with
    | Some required_fields =>
        let before := len cleaned_data in
        let cleaned_data :=
          remove_records_with_missing_fields h cleaned_data required_fields in
        (cleaned_data, before - len cleaned_data)%Z
    | None => (cleaned_data, 0%Z)
    end in
  (* Clean string fields *)
  let h :=
    match truthy_list (cfg_string_fields c) with
    | Some string_fields => clean_string_fields string_fields h cleaned_data
    | None => h
    end in
  (* Filter by criteria *)
  let '(cleaned_data, removed_invalid) :=
    match truthy_list (cfg_filters c) with
    | Some filters =>
        let before := len cleaned_data in
        let cleaned_data := filter_records_by_criteria h cleaned_data filters in
        (cleaned_data, before - len cleaned_data)%Z
    | None => (cleaned_data, 0%Z)
    end in
  let final_count := len cleaned_data in
  let total_removed := (original_count - final_count)%Z in
  (h, {| original_count := original_count;
         cleaned_data := cleaned_data;
         removed_duplicates := removed_duplicates;
         removed_missing := removed_missing;
         removed_invalid := removed_invalid;
         final_count := final_count;
         total_removed := total_removed |}).

(** ** Floating-point numbers *)

(** A Python [float] is a C double, an IEEE 754 binary64 number: the
    primitive type of floats, whose operations round to nearest, ties to
    even.  An operator of the source is the operation of the same name; only
    [/] and [**] can raise. *)
Abbreviation double := PrimFloat.float.

(** [float(n)] for an int below [2 ** 63], as the lengths of lists and the
    small literals of the source are. *)
Definition float_of_int (n : Z) : double := PrimFloat.of_uint63 (Uint63.of_Z n).

(** [x ** 2]: not-a-number and the infinities are passed on, a finite [x]
    goes to the C library's [pow], and the result is an [OverflowError] when
    it is too large for a float ([None]); a result too small becomes [0.0].
    [pow(x, 2.0)] is taken to be the rounded square. *)
Definition float_pow_2 (x : double) : option double :=
  if PrimFloat.is_nan x then Some PrimFloat.nan
  else if PrimFloat.is_infinity x then Some PrimFloat.infinity
  else
    let ix := (x * x)%float in
    if PrimFloat.is_infinity ix then None else Some ix.

(** [x ** 0.5]: not-a-number is passed on, both infinities give [inf] and
    both zeros [0.0]; [pow(x, 0.5)] is taken to be the rounded square root.
    For a negative [x] the result is a complex number, which is no float
    ([None]); the functions below never get there. *)
Definition float_pow_half (x : double) : option double :=
  if PrimFloat.is_nan x then Some PrimFloat.nan
  else if PrimFloat.is_infinity x then Some PrimFloat.infinity
  else if (x =? 0)%float then Some 0%float
  else if (x <? 0)%float then None
  else Some (PrimFloat.sqrt x).

(** The built-in [sorted], which compares with [<] and is stable: on a list
    without not-a-number, where [<] is a strict weak order, the result is the
    one rearrangement that is ascending and keeps equal numbers in their
    order.  (With a not-a-number in the list, what [list.sort] leaves depends
    on how it merges; the statements below leave such lists out.) *)
Fixpoint insort (x : double) (s : list double) : list double :=
  match s with
  | [] => [x]
  | y :: rest => if (y <? x)%float then y :: insort x rest else x :: s
  end.

Definition sorted (data : list double) : list double := foldr insort [] data.

(** The built-in [sum]: it starts from [0] and adds from the left, rounding
    at every step (as CPython does before version 3.12). *)
Definition sum (data : list double) : double := foldl PrimFloat.add 0%float data.

(** [l[i]]: a negative index counts from the end; [None] is [IndexError]. *)
Definition index {A} (l : list A) (i : Z) : option A :=
  if (i <? 0)%Z
  then if (i <? - len l)%Z then None else l !! Z.to_nat (len l + i)
  else l !! Z.to_nat i.

(** ** Outliers *)

(** [filter_outliers] (data_cleaning.py, lines 76-100).  [data] is not empty
    where [len(data)] divides, so there is no [ZeroDivisionError]; [None] is
    the [IndexError] of an index or the [OverflowError] of a square. *)
Definition filter_outliers (data : list double) (method : string)
  : option (list double) :=
  match data with
  | [] => Some []
  | _ =>
      if bool_decide (method = "iqr") then
        let sorted_data := sorted data in
        let n := len sorted_data in
        q1 ← index sorted_data (n / 4)%Z;
        q3 ← index sorted_data (3 * n / 4)%Z;
        let iqr := (q3 - q1)%float in
        let lower_bound := (q1 - 1.5 * iqr)%float in
        let upper_bound := (q3 + 1.5 * iqr)%float in
        Some (List.filter
                (λ x, (lower_bound <=? x)%float && (x <=? upper_bound)%float) data)
      else if bool_decide (method = "std") then
        let mean := (sum data / float_of_int (len data))%float in
        squares ← mapM (λ x, float_pow_2 (x - mean)) data;
        let variance := (sum squares / float_of_int (len data))%float in
        std_dev ← float_pow_half variance;
        let threshold := float_of_int 3 in
        Some (List.filter
                (λ x, (PrimFloat.abs (x - mean) <=? threshold * std_dev)%float) data)
      else Some data
  end.

(** ** Missing values *)

(** [fill_missing_values] (data_cleaning.py, lines 117-126).  The final
    comprehension, [[x if x is not None else fill_value for x in data]]: *)
Definition fill_with (fill_value : double) (data : list (option double))
  : list (option double) :=
  (λ x, match x with Some v => Some v | None => Some fill_value end) <$> data.

(** [valid_values] is not empty where its length divides. *)
Definition fill_missing_values (data : list (option double))
    (fill_value : option double) : list (option double) :=
  match fill_value with
  | None =>
      let valid_values := omap (λ x : option double, x) data in
      match valid_values with
      | [] => data
      | _ =>
          let fill_value :=
            (sum valid_values / float_of_int (len valid_values))%float in
          fill_with fill_value data
      end
  | Some fill_value => fill_with fill_value data
  end.

(** ** Statistics *)



(** ** Phone numbers *)

(** [standardize_phone_numbers] (data_cleaning.py, lines 169-174).

    The characters [\d] matches in a [str] pattern: [0]-[9] and the other
    decimal digits of Unicode.  Which code points above ASCII those are is a
    table of the interpreter, passed in as [decimal]; [\D] matches the rest. *)
Definition re_digit (decimal : char → bool) (c : char) : bool :=
  if (c <? 128)%N then (48 <=? c)%N && (c <=? 57)%N else decimal c.

Definition standardize_phone_numbers (decimal : char → bool) (phone : str) : str :=
  let digits := List.filter (re_digit decimal) phone in
  if bool_decide (len digits = 10%Z)
  then py "(" ++ take 3 digits ++ py ") " ++ take 3 (drop 3 digits)
       ++ py "-" ++ drop 6 digits
  else digits.

(** ** Duplicates in a plain list, and grouping *)

(** [remove_duplicates_simple] (data_cleaning.py, lines 15-23), on hashable
    items: the loop over [data], with the set [seen]. *)
Fixpoint remove_duplicates_simple_loop (seen : list value) (data : list value)
  : list value :=
  match data with
  | [] => []
  | item :: rest =>
      if seen_mem item seen
      then remove_duplicates_simple_loop seen rest
      else item :: remove_duplicates_simple_loop (item :: seen) rest
  end.

Definition remove_duplicates_simple (data : list value) : list value :=
  remove_duplicates_simple_loop [] data.

(** [group_by_property] (data_transformations.py, lines 82-90).  The
    dictionary [grouped] keeps its keys in insertion order and finds a key by
    [==]; it is the list of its items.

    [if group_key not in grouped: grouped[group_key] = []] followed by
    [grouped[group_key].append(item)]: *)
Fixpoint group_append (grouped : list (value * list loc)) (group_key : value)
    (item : loc) : list (value * list loc) :=
  match grouped with
  | [] => [(group_key, [item])]
  | (k, group) :: rest =>
      if py_eq group_key k
      then (k, group ++ [item]) :: rest
      else (k, group) :: group_append rest group_key item
  end.

Definition group_by_property (h : store) (items : list loc) (key : string)
  : list (value * list loc) :=
  foldl (λ grouped item, group_append grouped (dict_get (deref h item) key) item)
    [] items.

(** ** Ranges, and lists with gaps *)

Global Instance Rle_rel_dec : RelDecision Rle := Rle_dec.

(** [filter_by_range] (data_cleaning.py, lines 57-59). *)
Definition filter_by_range (data : list R) (min_val max_val : R) : list R :=
  filter (λ x, (min_val <= x <= max_val)%R) data.

(** [validate_numeric_range] (data_cleaning.py, lines 192-194). *)
Definition validate_numeric_range (value min_val max_val : R) : bool :=
  bool_decide (min_val <= value <= max_val)%R.

(** [remove_null_values] (data_cleaning.py, lines 107-109). *)
Definition remove_null_values {A} (data : list (option A)) : list A :=
  omap (λ x : option A, x) data.

(** [flatten_nested_list] (data_transformations.py, lines 118-120). *)
Definition flatten_nested_list {A} (nested : list (list A)) : list A :=
  sublist ← nested; item ← sublist; [item].

(** ** Pivoting and windows *)

(** [pivot_data] (data_transformations.py, lines 127-136).  The records are
    only read, so the dataset is given by its contents.  [None] is the
    [KeyError] of [result[key]] for a key the first record does not have.

    [result[key].append(value)]: *)
Definition pivot_append (result : gmap string (list value)) (key : string)
    (v : value) : option (gmap string (list value)) :=
  column ← result !! key;
  Some (<[key := column ++ [v]]> result).

(** [for key, value in record.items(): ...]; the keys of a record are
    distinct, so the order in which its items are visited does not matter. *)
Definition pivot_record (result : gmap string (list value)) (r : record)
  : option (gmap string (list value)) :=
  foldl (λ acc kv, result ← acc; pivot_append result kv.1 kv.2)
    (Some result) (map_to_list r).

Definition pivot_data (records : list record) : option (gmap string (list value)) :=
  match records with
  | [] => Some ∅
  | first :: _ =>
      let result : gmap string (list value) := (λ _, []) <$> first in
      foldl (λ acc r, result ← acc; pivot_record result r) (Some result) records
  end.

(** [data[i:j]]: a negative bound counts from the end, and both bounds are
    brought into the list. *)
Definition slice_bound (n i : Z) : Z :=
  if (i <? 0)%Z then Z.max 0 (n + i) else Z.min i n.

Definition py_slice {A} (l : list A) (i j : Z) : list A :=
  let lo := slice_bound (len l) i in
  let hi := slice_bound (len l) j in
  take (Z.to_nat (hi - lo)) (drop (Z.to_nat lo) l).

(** [range(n)], empty when [n] is not positive. *)
Definition py_range (n : Z) : list Z := Z.of_nat <$> seq 0 (Z.to_nat n).

(** [sliding_window] (data_transformations.py, lines 147-149). *)
Definition sliding_window {A} (data : list A) (window_size : Z) : list (list A) :=
  (λ i, py_slice data i (i + window_size)) <$> py_range (len data - window_size + 1).

(** ** More string cleaning *)

(** The class [a-zA-Z0-9]. *)
Definition ascii_alnum (c : char) : bool :=
  ((97 <=? c) && (c <=? 122) || (65 <=? c) && (c <=? 90)
   || (48 <=? c) && (c <=? 57))%N.

(** [remove_special_characters] (data_cleaning.py, lines 152-156): the
    characters outside [a-zA-Z0-9\s], or outside [a-zA-Z0-9], are deleted;
    [\s] matches the characters of [str.isspace]. *)
Definition remove_special_characters (text : str) (keep_spaces : bool) : str :=
  if keep_spaces
  then List.filter (λ c, ascii_alnum c || isspace c) text
  else List.filter ascii_alnum text.

(** [str.strip()]: the white space at both ends is dropped. *)
Fixpoint lstrip (text : str) : str :=
  match text with
  | [] => []
  | c :: rest => if isspace c then lstrip rest else text
  end.

Definition rstrip (text : str) : str := reverse (lstrip (reverse text)).

Definition strip (text : str) : str := rstrip (lstrip text).

(** Truth value of a string: it is not empty. *)
Definition truthy_str (text : str) : bool :=
  match text with [] => false | _ => true end.

(** [remove_empty_strings] (data_cleaning.py, lines 112-114). *)
Definition remove_empty_strings (data : list str) : list str :=
  List.filter (λ x, truthy_str x && truthy_str (strip x)) data.

(** [text.replace(old, new)] for one-character [old] and [new]. *)
Definition replace_char (old new : char) (text : str) : str :=
  (λ c, if (c =? old)%N then new else c) <$> text.

(** [standardize_dates] (data_cleaning.py, lines 240-248); [output_format] is
    not used by the source either. *)
Definition standardize_dates (dates : list str) (output_format : str) : list str :=
  (λ date, replace_char 46%N 45%N (replace_char 47%N 45%N date)) <$> dates.

(** ** Validators *)

(** The dictionary [validators] of [filter_invalid_records], in insertion
    order; a validator is a function of the field's value whose result is
    read as a truth value. *)
Abbreviation validators := (list (string * (value → bool))).

(** [filter_invalid_records] (data_cleaning.py, lines 197-209).  The inner
    loop: a validator is called only [if field in record], and the loop is
    left at the first one that fails. *)
Fixpoint is_valid (r : record) (vs : validators) : bool :=
  match vs with
  | [] => true
  | (field, validator) :: rest =>
      match r !! field with
      | Some v => if negb (validator v) then false else is_valid r rest
      | None => is_valid r rest
      end
  end.

Fixpoint filter_invalid_records (h : store) (records : list loc) (vs : validators)
  : list loc :=
  match records with
  | [] => []
  | record :: rest =>
      if is_valid (deref h record) vs
      then record :: filter_invalid_records h rest vs
      else filter_invalid_records h rest vs
  end.

(** ** Duplicates, with sets *)

(** A [set] of hashable items is the list of its members, no two of them
    equal, in the order they were added; membership is [seen_mem].
    [s.add(item)] leaves the set alone when it has an equal member. *)
Definition set_add (s : list value) (item : value) : list value :=
  if seen_mem item s then s else s ++ [item].

(** [find_duplicates] (data_transformations.py, lines 156-164): the loop
    over [items] with the sets [seen] and [duplicates].  The order in which
    [list(duplicates)] enumerates the set is the interpreter's; here it is the
    order of insertion. *)
Definition find_duplicates_step (state : list value * list value) (item : value)
  : list value * list value :=
  let '(seen, duplicates) := state in
  let duplicates :=
    if seen_mem item seen then set_add duplicates item else duplicates in
  (set_add seen item, duplicates).

Definition find_duplicates (items : list value) : list value :=
  (foldl find_duplicates_step ([], []) items).2.

(** ** Currency amounts *)

(** The class [0-9]. *)
Definition ascii_digit (c : char) : bool := ((48 <=? c) && (c <=? 57))%N.

(** The number a run of digits denotes. *)
Definition digit_value (c : char) : R := IZR (Z.of_N c - 48).

Definition decimal_value (digits : str) : R :=
  foldl (λ acc c, acc * 10 + digit_value c)%R 0%R digits.

(** The longest prefix of digits, and what follows it. *)
Fixpoint span_digits (s : str) : str * str :=
  match s with
  | [] => ([], [])
  | c :: rest =>
      if ascii_digit c
      then let '(digits, rest') := span_digits rest in (c :: digits, rest')
      else ([], s)
  end.

(** The built-in [float] on the strings that reach it in
    [clean_and_convert_currency], which are made of [0]-[9] and [.] only: a
    run of digits, then possibly a point and another run of digits, with a
    digit on one side of the point at least.  Anything else over these
    characters is a [ValueError], which is [None] here.  (Signs, exponents,
    white space and the other forms [float] reads hold a character outside
    [0-9.], so they never reach it.)  The numbers are reals. *)
Definition float (s : str) : option R :=
  let '(int_part, rest) := span_digits s in
  match rest with
  | [] =>
      match int_part with
      | [] => None
      | _ => Some (decimal_value int_part)
      end
  | c :: rest =>
      let '(frac_part, rest') := span_digits rest in
      if (c =? 46)%N && bool_decide (rest' = [])
         && negb (bool_decide (int_part = []) && bool_decide (frac_part = []))
      then Some (decimal_value int_part
                 + decimal_value frac_part / 10 ^ length frac_part)%R
      else None
  end.

(** [clean_and_convert_currency] (data_cleaning.py, lines 227-233):
    [re.sub(r'[^0-9.]', '', currency_str)] deletes every character outside
    the class, and the [ValueError] of [float] is turned into [None]. *)
Definition clean_and_convert_currency (currency_str : str) : option R :=
  let cleaned := List.filter (λ c, ascii_digit c || (c =? 46)%N) currency_str in
  float cleaned.

(** ** Regular expressions, and e-mail addresses *)

(** The regular expressions of the patterns below: a character class, a
    sequence, an alternative and a repetition; [Never] matches nothing and
    [Eps] the empty string. *)
Inductive regex : Type :=
  | Never
  | Eps
  | Class (p : char → bool)
  | Seq (r1 r2 : regex)
  | Alt (r1 r2 : regex)
  | Star (r : regex).

(** Whether the whole of a string matches an expression, by derivatives. *)
Fixpoint nullable (r : regex) : bool :=
  match r with
  | Never => false
  | Eps => true
  | Class _ => false
  | Seq r1 r2 => nullable r1 && nullable r2
  | Alt r1 r2 => nullable r1 || nullable r2
  | Star _ => true
  end.

Fixpoint deriv (c : char) (r : regex) : regex :=
  match r with
  | Never => Never
  | Eps => Never
  | Class p => if p c then Eps else Never
  | Seq r1 r2 =>
      if nullable r1
      then Alt (Seq (deriv c r1) r2) (deriv c r2)
      else Seq (deriv c r1) r2
  | Alt r1 r2 => Alt (deriv c r1) (deriv c r2)
  | Star r1 => Seq (deriv c r1) (Star r1)
  end.

Definition fullmatch (r : regex) (s : str) : bool :=
  nullable (foldl (λ r c, deriv c r) r s).

(** [r+] and [r{2,}]. *)
Definition plus (r : regex) : regex := Seq r (Star r).
Definition at_least_two (r : regex) : regex := Seq r (Seq r (Star r)).

(** [$] where it ends a pattern: the end of the string, or the newline that
    is the last character of the string. *)
Definition dollar : regex := Alt Eps (Class (N.eqb 10)).

(** The classes [a-zA-Z], [a-zA-Z0-9._%+-] and [a-zA-Z0-9.-]. *)
Definition ascii_alpha (c : char) : bool :=
  ((97 <=? c) && (c <=? 122) || (65 <=? c) && (c <=? 90))%N.

Definition local_char (c : char) : bool :=
  ascii_alnum c
  || ((c =? 46) || (c =? 95) || (c =? 37) || (c =? 43) || (c =? 45))%N.

Definition domain_char (c : char) : bool :=
  ascii_alnum c || ((c =? 46) || (c =? 45))%N.

(** [validate_email] (data_cleaning.py, lines 186-189).  The pattern
    [^[a-zA-Z0-9._%+-]+@[a-zA-Z0-9.-]+\.[a-zA-Z]{2,}$]: [re.match] looks for
    a match that starts at the start of the string, and the [$] lets it end
    only where [dollar] says, so the whole string is matched. *)
Definition email_pattern : regex :=
  Seq (plus (Class local_char))
    (Seq (Class (N.eqb 64))
      (Seq (plus (Class domain_char))
        (Seq (Class (N.eqb 46))
          (Seq (at_least_two (Class ascii_alpha)) dollar)))).

Definition validate_email (email : str) : bool := fullmatch email_pattern email.

(** ** Filters, maps and chains *)

(** [filter_even_numbers] (data_transformations.py, lines 38-40), on ints:
    [%] has the sign of the divisor, as [Z.modulo]. *)
Definition filter_even_numbers (numbers : list Z) : list Z :=
  List.filter (λ num, (num mod 2 =? 0)%Z) numbers.

(** [filter_by_condition] (data_transformations.py, lines 43-45); the result
    of [condition] is read as a truth value. *)
Definition filter_by_condition {A} (items : list A) (condition : A → bool) : list A :=
  List.filter condition items.

Global Instance Rlt_rel_dec : RelDecision Rlt := Rlt_dec.

(** [filter_dict_by_value] (data_transformations.py, lines 48-50).  The
    dictionary is a finite map from names to numbers: the comprehension keeps
    the entries in their order of insertion, which the map does not record. *)
Definition filter_dict_by_value (data : gmap string R) (threshold : R)
  : gmap string R :=
  filter (λ kv : string * R, (threshold < kv.2)%R) data.

(** [apply_transformation] (data_transformations.py, lines 62-64). *)
Definition apply_transformation {A B} (data : list A) (transform : A → B) : list B :=
  transform <$> data.

(** [chain_transformations] (data_transformations.py, lines 139-144). *)
Definition chain_transformations {A} (data : A) (functions : list (A → A)) : A :=
  foldl (λ result func, func result) data functions.

(** ** Duplicate rows *)

(** [sorted(record.items())]: the items of a dictionary have distinct keys,
    so two of them are ordered by their keys alone, as strings. *)
Definition items_le (a b : string * value) : Prop := String.leb a.1 b.1.

Definition row_key (r : record) : list (string * value) :=
  merge_sort items_le (map_to_list r).

(** Equality of two such keys, which the dictionary [seen] finds a key by:
    tuples of the same length with equal items, the field names the same and
    the values [==]. *)
Fixpoint tuple_eq (k1 k2 : list (string * value)) : bool :=
  match k1, k2 with
  | [], [] => true
  | a :: k1, b :: k2 => bool_decide (a.1 = b.1) && py_eq a.2 b.2 && tuple_eq k1 k2
  | _, _ => false
  end.

(** [find_duplicate_rows] (data_cleaning.py, lines 38-50): the loop over
    [records], with the keys of the dictionary [seen]. *)
Fixpoint find_duplicate_rows_loop (h : store) (seen : list (list (string * value)))
    (records : list loc) : list loc :=
  match records with
  | [] => []
  | record :: rest =>
      let key := row_key (deref h record) in
      if existsb (tuple_eq key) seen
      then record :: find_duplicate_rows_loop h seen rest
      else find_duplicate_rows_loop h (key :: seen) rest
  end.

Definition find_duplicate_rows (h : store) (records : list loc) : list loc :=
  find_duplicate_rows_loop h [] records.

(** * Part II: vocabulary of the statements, and the data of the examples *)

(** ** Vocabulary *)

(** The value a record is compared by when duplicates are removed. *)
Definition key_of (h : store) (key : string) (l : loc) : value :=
  dict_get (deref h l) key.

(** No two records of the list agree on the key. *)
Fixpoint distinct_keys (h : store) (key : string) (records : list loc) : Prop :=
  match records with
  | [] => True
  | r :: rest =>
      seen_mem (key_of h key r) (key_of h key <$> rest) = false
      ∧ distinct_keys h key rest
  end.

(** Every criterion holds of the record: [record.get(field) == value]. *)
Definition meets (c : criteria) (r : record) : Prop :=
  Forall (λ kv, py_eq (dict_get r kv.1) kv.2 = true) c.

Global Instance meets_dec c r : Decision (meets c r).
Proof. unfold meets. apply _. Defined.

(** A run of characters without white space. *)
Definition no_space (w : str) : Prop := Forall (λ c, isspace c = false) w.

(** What [split] returns: non-empty words without white space. *)
Definition word (w : str) : Prop := w ≠ [] ∧ no_space w.

(** Whitespace normalisation, on the values that are strings. *)
Definition clean_value (v : value) : value :=
  match v with
  | VStr s => VStr (clean_whitespace s)
  | _ => v
  end.

(** A record whose string fields hold normalised text already. *)
Definition whitespace_clean (fields : list string) (r : record) : Prop :=
  ∀ field s, field ∈ fields → r !! field = Some (VStr s) → clean_whitespace s = s.

(** The four stages of [clean_dataset], each as a function of the
    configuration: a stage that is not configured does nothing. *)
Definition dedup_stage (c : config) (h : store) (data : list loc) : list loc :=
  match dedup_key c with
  | Some key => remove_duplicate_dicts h data key
  | None => data
  end.

Definition missing_stage (c : config) (h : store) (data : list loc) : list loc :=
  match truthy_list (cfg_required_fields c) with
  | Some fields => remove_records_with_missing_fields h data fields
  | None => data
  end.

Definition strings_stage (c : config) (h : store) (data : list loc) : store :=
  match truthy_list (cfg_string_fields c) with
  | Some fields => clean_string_fields fields h data
  | None => h
  end.

Definition filter_stage (c : config) (h : store) (data : list loc) : list loc :=
  match truthy_list (cfg_filters c) with
  | Some crit => filter_records_by_criteria h data crit
  | None => data
  end.

(** What the string stage does to one record. *)
Definition normalise (c : config) (r : record) : record :=
  match truthy_list (cfg_string_fields c) with
  | Some fields => clean_record fields r
  | None => r
  end.

(** The string stage has nothing to do on [r]. *)
Definition normalised (c : config) (r : record) : Prop :=
  ∀ fields, truthy_list (cfg_string_fields c) = Some fields →
    whitespace_clean fields r.

(** The string stage changes nothing of [r] that the stages before it look
    at: neither the value under the duplicate key, nor whether a required
    field is missing. *)
Definition normalise_safe (c : config) (r : record) : Prop :=
  (∀ key, dedup_key c = Some key →
     dict_get (normalise c r) key = dict_get r key)
  ∧ (∀ fields, truthy_list (cfg_required_fields c) = Some fields →
       ∀ field, field ∈ fields →
         field_missing (normalise c r) field = field_missing r field).

(** The list holds no not-a-number. *)
Definition no_nan (data : list double) : Prop :=
  Forall (λ x, PrimFloat.is_nan x = false) data.

(** Every number is at most the next one. *)
Definition ascending (s : list double) : Prop :=
  Sorted (λ a b, (a <=? b)%float = true) s.

(** The rational number a finite float stands for. *)
Definition exact_value (x : double) : option Q :=
  match Prim2SF x with
  | S754_zero _ => Some 0%Q
  | S754_finite s m e =>
      Some (Qred (inject_Z (if s then Z.neg m else Z.pos m) * 2 ^ e))%Q
  | _ => None
  end.

(** The entries of [data] that are numbers, in order. *)
Definition present (data : list (option double)) : list double :=
  omap (λ x : option double, x) data.

(** Their mean as [fill_missing_values] computes it: the sum, divided by
    the count. *)
Definition mean_of_present (data : list (option double)) : double :=
  (sum (present data) / float_of_int (len (present data)))%float.

(** A float whose sign bit is not set: [0.0], a positive number or [inf];
    not-a-number counts as one too. *)
Definition SFnot_negative (x : spec_float) : Prop :=
  match x with
  | S754_nan => True
  | S754_zero s | S754_infinity s | S754_finite s _ _ => s = false
  end.

Definition not_negative (x : double) : Prop := SFnot_negative (Prim2SF x).

(** ** Data *)

(** The records and the configuration of [run_examples], section 7. *)
Definition demo_store : store :=
  list_to_map
    [ (0, list_to_map [("id", VInt 1); ("name", VStr (py "  Alice  "));
                       ("age", VInt 25); ("email", VStr (py "alice@email.com"))]);
      (1, list_to_map [("id", VInt 2); ("name", VStr (py "Bob"));
                       ("age", VInt 30); ("email", VStr (py "bob@email.com"))]);
      (2, list_to_map [("id", VInt 1); ("name", VStr (py "Alice"));
                       ("age", VInt 25); ("email", VStr (py "alice@email.com"))]);
      (3, list_to_map [("id", VInt 3); ("name", VStr []);
                       ("age", VNone); ("email", VStr (py "invalid"))]);
      (4, list_to_map [("id", VInt 4); ("name", VStr (py "Charlie"));
                       ("age", VInt 35); ("email", VStr (py "charlie@email.com"))]) ].

Definition demo_config : config :=
  {| cfg_remove_duplicates := Some true;
     cfg_duplicate_key := Some "id";
     cfg_required_fields := Some ["name"; "age"; "email"];
     cfg_string_fields := Some ["name"; "email"];
     cfg_filters := None |}.

(** The numbers of [run_examples], section 3. *)
Definition data_with_outliers : list double :=
  [10; 12; 13; 12; 11; 13; 100; 12; 11; 14; 1]%float.

(** Five numbers around [1e16], where the floats are the even integers. *)
Definition data_near_1e16 : list double :=
  [9999999999999996; 1e16; 1e16; 10000000000000002; 10000000000000002]%float.

(** Two records whose names differ only by a leading blank, cleaned by name. *)
Definition blank_store : store :=
  list_to_map [ (0, {[ "name" := VStr (py "a") ]});
                (1, {[ "name" := VStr (py " a") ]}) ].

Definition blank_config : config :=
  {| cfg_remove_duplicates := Some true;
     cfg_duplicate_key := Some "name";
     cfg_required_fields := None;
     cfg_string_fields := Some ["name"];
     cfg_filters := None |}.

(** A store with one empty record. *)
Definition empty_record_store : store := {[ 0 := ∅ ]}.

(** A store whose first record holds [None] under ["id"] and whose second has
    no ["id"]. *)
Definition none_then_missing : store :=
  list_to_map [ (0, {[ "id" := VNone ]}); (1, ∅) ].

(** Four records: ["id"] 1, no ["id"], ["id"] 2, and [None] under ["id"]. *)
Definition ids_with_gaps : store :=
  list_to_map [ (0, {[ "id" := VInt 1 ]}); (1, {[ "name" := VStr (py "a") ]});
                (2, {[ "id" := VInt 2 ]}); (3, {[ "id" := VNone ]}) ].

(** No two values of the list are equal. *)
Fixpoint distinct_values (l : list value) : Prop :=
  match l with
  | [] => True
  | v :: rest => seen_mem v rest = false ∧ distinct_values rest
  end.

(** The records of [items] whose key value equals [k], in order. *)
Definition with_key (h : store) (key : string) (k : value) (items : list loc)
  : list loc :=
  filter (λ l, py_eq (key_of h key l) k) items.

(** The values the records hold under [k], in the order of the records. *)
Definition column (k : string) (records : list record) : list value :=
  omap (λ r : record, r !! k) records.

(** The values paired with [k] in a list of items. *)
Definition items_at (k : string) (l : list (string * value)) : list value :=
  omap (λ kv, if decide (kv.1 = k) then Some kv.2 else None) l.

(** [items.count(v)]: how many members of the list equal [v]. *)
Definition count (v : value) (items : list value) : nat :=
  length (List.filter (py_eq v) items).


(** The strings a regular expression denotes. *)
Fixpoint lang (r : regex) (s : str) : Prop :=
  match r with
  | Never => False
  | Eps => s = []
  | Class p => ∃ c, s = [c] ∧ p c = true
  | Seq r1 r2 => ∃ s1 s2, s = s1 ++ s2 ∧ lang r1 s1 ∧ lang r2 s2
  | Alt r1 r2 => lang r1 s ∨ lang r2 s
  | Star r1 => ∃ ss, s = concat ss ∧ Forall (λ w, w ≠ [] ∧ lang r1 w) ss
  end.

(** Every character of the string is in the class. *)
Definition all_in (p : char → bool) (s : str) : Prop :=
  Forall (λ c, p c = true) s.

(** How many [@] a string holds. *)
Definition ats (s : str) : nat := length (List.filter (N.eqb 64) s).

(** Two records are equal as dictionaries: the same fields, with equal
    values. *)
Definition same_row (r1 r2 : record) : Prop :=
  ∀ k, match r1 !! k, r2 !! k with
       | Some v1, Some v2 => py_eq v1 v2 = true
       | None, None => True
       | _, _ => False
       end.

(** The order of field names. *)
Definition string_le (a b : string) : Prop := String.leb a b.

(** * Part III: properties *)

(** ** Equality of values *)

Lemma py_eq_refl v : py_eq v v = true.
Proof. destruct v as [|[]| |]; simpl; by rewrite ?bool_decide_eq_true. Qed.

Lemma py_eq_sym a b : py_eq a b = py_eq b a.
Proof.
  destruct a as [|[]| |], b as [|[]| |]; simpl; try done;
    apply bool_decide_ext; naive_solver.
Qed.

Lemma py_eq_trans a b c : py_eq a b = true → py_eq b c = true → py_eq a c = true.
Proof.
  destruct a as [|[]| |], b as [|[]| |], c as [|[]| |]; simpl; try done;
    rewrite ?bool_decide_eq_true; congruence.
Qed.

Lemma py_eq_None v : py_eq v VNone = true ↔ v = VNone.
Proof. destruct v as [|[]| |]; simpl; naive_solver. Qed.

Lemma py_eq_congr_l a b c : py_eq a b = true → py_eq a c = py_eq b c.
Proof.
  intros Hab. destruct (py_eq b c) eqn:Hbc.
  - by eapply py_eq_trans.
  - destruct (py_eq a c) eqn:Hac; [|done].
    rewrite <- Hbc. symmetry. eapply py_eq_trans; [|done]. by rewrite py_eq_sym.
Qed.

(** ** Duplicate removal *)

Section dedup.
Context (h : store) (key : string).

Lemma seen_mem_app v s1 s2 : seen_mem v (s1 ++ s2) = seen_mem v s1 || seen_mem v s2.
Proof. apply existsb_app. Qed.

Lemma seen_mem_cons v w s : seen_mem v (w :: s) = py_eq v w || seen_mem v s.
Proof. done. Qed.

Lemma seen_mem_true v s :
  seen_mem v s = true ↔ ∃ w, w ∈ s ∧ py_eq v w = true.
Proof.
  unfold seen_mem. rewrite existsb_exists.
  setoid_rewrite <- list_elem_of_In. done.
Qed.

Lemma seen_mem_false v s :
  seen_mem v s = false ↔ ∀ w, w ∈ s → py_eq v w = false.
Proof.
  rewrite <- not_true_iff_false, seen_mem_true. split.
  - intros Hn w Hw. destruct (py_eq v w) eqn:E; [|done]. destruct Hn; eauto.
  - intros Hall (w & Hw & E). rewrite Hall in E; done.
Qed.

Lemma seen_mem_congr v w s : py_eq v w = true → seen_mem v s = seen_mem w s.
Proof.
  intros E. induction s as [|x s IH]; simpl; [done|].
  by rewrite IH, (py_eq_congr_l v w x).
Qed.

(** Reading one more record at the end: it is appended exactly when its key
    value equals none of [seen] and none of the records before it. *)
Lemma loop_snoc seen records r :
  remove_duplicate_dicts_loop h key seen (records ++ [r])
  = remove_duplicate_dicts_loop h key seen records
    ++ (if seen_mem (key_of h key r) ((key_of h key <$> records) ++ seen) then [] else [r]).
Proof.
  revert seen. induction records as [|a rest IH]; intros seen.
  { simpl. by destruct (seen_mem _ seen). }
  rewrite fmap_cons. cbn [app remove_duplicate_dicts_loop].
  fold (key_of h key a). destruct (seen_mem (key_of h key a) seen) eqn:Ha.
  - rewrite IH. do 2 f_equal. rewrite ?seen_mem_app, ?seen_mem_cons, ?seen_mem_app.
    destruct (py_eq (key_of h key r) (key_of h key a)) eqn:E; [|done].
    rewrite (seen_mem_congr _ _ seen E), Ha. simpl. by rewrite orb_true_r.
  - rewrite IH. cbn [app]. do 2 f_equal.
    rewrite ?seen_mem_app, ?seen_mem_cons, ?seen_mem_app.
    by destruct (py_eq (key_of h key r) (key_of h key a)),
      (seen_mem (key_of h key r) (key_of h key <$> rest)), (seen_mem (key_of h key r) seen).
Qed.

Lemma loop_sublist seen records :
  sublist (remove_duplicate_dicts_loop h key seen records) records.
Proof.
  revert seen. induction records as [|a rest IH]; intros seen; simpl; [done|].
  destruct (seen_mem _ seen).
  - apply sublist_cons, IH.
  - apply sublist_skip, IH.
Qed.

Lemma loop_fresh seen records r :
  r ∈ remove_duplicate_dicts_loop h key seen records →
  seen_mem (key_of h key r) seen = false.
Proof.
  revert seen. induction records as [|a rest IH]; intros seen; simpl.
  { by intros ?%elem_of_nil. }
  fold (key_of h key a). destruct (seen_mem (key_of h key a) seen) eqn:Ha; [by apply IH|].
  intros [->|Hr]%elem_of_cons; [done|].
  apply IH in Hr. simpl in Hr. by apply orb_false_elim in Hr as [_ ?].
Qed.

Lemma loop_distinct seen records :
  distinct_keys h key (remove_duplicate_dicts_loop h key seen records).
Proof.
  revert seen. induction records as [|a rest IH]; intros seen; simpl; [done|].
  fold (key_of h key a). destruct (seen_mem (key_of h key a) seen) eqn:Ha; [by apply IH|].
  simpl. split; [|by apply IH].
  apply seen_mem_false. intros w (r & -> & Hr)%list_elem_of_fmap.
  apply loop_fresh in Hr. simpl in Hr.
  apply orb_false_elim in Hr as [Hr _]. by rewrite py_eq_sym.
Qed.

Lemma distinct_keys_sublist l1 l2 :
  sublist l1 l2 → distinct_keys h key l2 → distinct_keys h key l1.
Proof.
  induction 1 as [|x l1 l2 Hsub IH|x l1 l2 Hsub IH]; simpl; [done| |].
  - intros [Hx Hd]. split; [|by apply IH].
    rewrite seen_mem_false in Hx |- *. intros w Hw. apply Hx.
    apply list_elem_of_fmap in Hw as (r & -> & Hr).
    apply list_elem_of_fmap. exists r. split; [done|].
    by eapply elem_of_sublist.
  - intros [_ Hd]. by apply IH.
Qed.

(** On a list without duplicate keys, none of them seen, the loop keeps
    everything. *)
Lemma loop_id seen records :
  distinct_keys h key records →
  (∀ r, r ∈ records → seen_mem (key_of h key r) seen = false) →
  remove_duplicate_dicts_loop h key seen records = records.
Proof.
  revert seen. induction records as [|a rest IH]; intros seen; simpl; [done|].
  intros [Ha Hd] Hseen. fold (key_of h key a).
  rewrite (Hseen a) by apply list_elem_of_here.
  f_equal. apply IH; [done|]. intros r Hr. rewrite seen_mem_cons.
  rewrite (Hseen r) by by apply list_elem_of_further.
  rewrite orb_false_r, py_eq_sym.
  rewrite seen_mem_false in Ha. apply Ha, list_elem_of_fmap. eauto.
Qed.

Lemma remove_duplicate_dicts_sublist records :
  sublist (remove_duplicate_dicts h records key) records.
Proof. apply loop_sublist. Qed.

Lemma remove_duplicate_dicts_stable records kept :
  sublist kept (remove_duplicate_dicts h records key) →
  remove_duplicate_dicts h kept key = kept.
Proof.
  intros Hsub. apply loop_id; [|done].
  eapply distinct_keys_sublist; [done|]. apply loop_distinct.
Qed.

End dedup.

(** ** The two record filters, as filters *)

Lemma filter_id {A} (P : A → Prop) `{!∀ x, Decision (P x)} (l : list A) :
  Forall P l → filter P l = l.
Proof.
  induction 1 as [|x l Hx Hl IH]; [done|]. by rewrite filter_cons_True, IH.
Qed.

Lemma filter_stable {A} (P : A → Prop) `{!∀ x, Decision (P x)} (l kept : list A) :
  sublist kept (filter P l) → filter P kept = kept.
Proof.
  intros Hsub. apply filter_id, Forall_forall. intros x Hx.
  eapply elem_of_sublist in Hx; [|done].
  by apply list_elem_of_filter in Hx as [? _].
Qed.

Lemma remove_records_with_missing_fields_filter h records required_fields :
  remove_records_with_missing_fields h records required_fields
  = filter (λ l, has_all_fields (deref h l) required_fields) records.
Proof.
  induction records as [|r rest IH]; simpl; [done|].
  rewrite filter_cons, <- IH.
  destruct (has_all_fields _ _); by case_decide.
Qed.

Lemma filter_records_by_criteria_filter h records c :
  filter_records_by_criteria h records c
  = filter (λ l, criteria_match (deref h l) c) records.
Proof.
  induction records as [|r rest IH]; simpl; [done|].
  rewrite filter_cons, <- IH.
  destruct (criteria_match _ _); by case_decide.
Qed.

Lemma criteria_match_true r c :
  criteria_match r c = true ↔
  ∀ field v, (field, v) ∈ c → py_eq (dict_get r field) v = true.
Proof.
  induction c as [|[k v] rest IH]; simpl.
  { split; [|done]. by intros _ ?? ?%elem_of_nil. }
  destruct (py_eq (dict_get r k) v) eqn:E; simpl.
  - rewrite IH. split.
    + intros Hrest f w [[= -> ->]|?]%elem_of_cons; auto.
    + intros Hall f w Hin. apply Hall. by apply list_elem_of_further.
  - split; [done|]. intros Hall. rewrite <- E. apply Hall, list_elem_of_here.
Qed.

Lemma has_all_fields_true r fields :
  has_all_fields r fields = true ↔
  ∀ field, field ∈ fields → field_missing r field = false.
Proof.
  induction fields as [|f rest IH]; simpl.
  { split; [|done]. by intros _ ? ?%elem_of_nil. }
  destruct (field_missing r f) eqn:E.
  - split; [done|]. intros Hall. rewrite <- E. symmetry. apply Hall, list_elem_of_here.
  - rewrite IH. split.
    + intros Hrest g [->|?]%elem_of_cons; auto.
    + intros Hall g Hin. apply Hall. by apply list_elem_of_further.
Qed.

(** ** Whitespace normalisation is idempotent *)

Lemma split_from_word_app w w' text :
  no_space w' → split_from w (w' ++ text) = split_from (w ++ w') text.
Proof.
  intros Hw'. revert w. induction Hw' as [|c w' Hc _ IH]; intros w; simpl.
  { by rewrite app_nil_r. }
  rewrite Hc, IH. by rewrite <- app_assoc.
Qed.

Lemma split_from_words w text :
  no_space w → Forall word (split_from w text).
Proof.
  revert w. induction text as [|c rest IH]; intros w Hw; simpl.
  { destruct w; [done|]. by apply Forall_singleton. }
  destruct (isspace c) eqn:Hc.
  - destruct w as [|c' w'] eqn:E; [by apply IH|].
    constructor; [by split|]. apply IH. constructor.
  - apply IH, Forall_app. split; [done|]. by apply Forall_singleton.
Qed.

Lemma split_join words :
  Forall word words → split (join [space] words) = words.
Proof.
  unfold split. induction 1 as [|w rest [Hne Hw] Hrest IH]; [done|].
  destruct rest as [|w2 rest].
  - simpl. rewrite <- (app_nil_r w) at 1.
    rewrite split_from_word_app by done. simpl. by destruct w.
  - change (join [space] (w :: w2 :: rest))
      with (w ++ space :: join [space] (w2 :: rest)).
    rewrite split_from_word_app by done.
    cbn [app split_from]. change (isspace space) with true. cbn iota.
    rewrite IH. by destruct w.
Qed.

Lemma clean_whitespace_idemp text :
  clean_whitespace (clean_whitespace text) = clean_whitespace text.
Proof.
  unfold clean_whitespace. rewrite split_join; [done|].
  apply split_from_words. constructor.
Qed.

(** [clean_whitespace] keeps the words of the text and is idempotent: a
    cleaned text is cleaned to itself. *)
Theorem clean_whitespace_fixed (text : str) :
  split (clean_whitespace text) = split text
  ∧ clean_whitespace (clean_whitespace text) = clean_whitespace text.
Proof.
  split; [|apply clean_whitespace_idemp].
  unfold clean_whitespace. apply split_join, split_from_words. constructor.
Qed.

Example clean_whitespace_demo :
  clean_whitespace (py "  Hello   World ") = py "Hello World".
Proof. reflexivity. Qed.

(** ** Normalising the string fields of a record and of the store *)

Lemma clean_value_idemp v : clean_value (clean_value v) = clean_value v.
Proof. destruct v; simpl; by rewrite ?clean_whitespace_idemp. Qed.

Lemma lookup_clean_field r field f :
  clean_field r field !! f
  = if decide (f = field) then clean_value <$> r !! f else r !! f.
Proof.
  unfold clean_field. case_decide as Hf.
  - subst f. destruct (r !! field) as [[]|] eqn:E; rewrite ?lookup_insert_eq; by rewrite ?E.
  - destruct (r !! field) as [[]|] eqn:E; rewrite ?lookup_insert_ne; done.
Qed.

(** The fields named are normalised, the others are as they were. *)
Lemma lookup_clean_record fields r f :
  clean_record fields r !! f
  = if decide (f ∈ fields) then clean_value <$> r !! f else r !! f.
Proof.
  unfold clean_record. revert r.
  induction fields as [|g rest IH]; intros r; simpl; [done|].
  rewrite IH, lookup_clean_field.
  destruct (decide (f = g)) as [->|Hfg].
  - rewrite (decide_True (P := g ∈ g :: rest)) by apply list_elem_of_here.
    case_decide; [|done].
    destruct (r !! g); simpl; by rewrite ?clean_value_idemp.
  - destruct (decide (f ∈ rest)) as [Hin|Hin].
    + by rewrite decide_True by by apply list_elem_of_further.
    + rewrite decide_False; [done|]. by intros [?|?]%elem_of_cons.
Qed.

Lemma clean_record_idemp fields r :
  clean_record fields (clean_record fields r) = clean_record fields r.
Proof.
  apply map_eq. intros f. rewrite !lookup_clean_record.
  case_decide; [|done]. destruct (r !! f); simpl; by rewrite ?clean_value_idemp.
Qed.

(** Every record of [data] is normalised, whether it is listed once or
    several times; no other object is written. *)
Lemma lookup_clean_string_fields fields h data (l : loc) :
  clean_string_fields fields h data !! l
  = if decide (l ∈ data) then clean_record fields <$> h !! l else h !! l.
Proof.
  unfold clean_string_fields. revert h.
  induction data as [|a rest IH]; intros h; simpl; [done|].
  rewrite IH, lookup_alter.
  destruct (decide (a = l)) as [->|Hal].
  - rewrite (decide_True (P := l ∈ l :: rest)) by apply list_elem_of_here.
    case_decide; [|done].
    destruct (h !! l); simpl; by rewrite ?clean_record_idemp.
  - destruct (decide (l ∈ rest)) as [Hin|Hin].
    + by rewrite decide_True by by apply list_elem_of_further.
    + rewrite decide_False; [done|]. intros [?|?]%elem_of_cons; congruence.
Qed.

Lemma clean_record_id fields r :
  whitespace_clean fields r → clean_record fields r = r.
Proof.
  intros Hr. apply map_eq. intros f. rewrite lookup_clean_record.
  case_decide as Hf; [|done].
  destruct (r !! f) as [[| | |s]|] eqn:E; simpl; try done.
  by rewrite (Hr f s).
Qed.

Lemma clean_record_clean fields r : whitespace_clean fields (clean_record fields r).
Proof.
  intros f s Hf. rewrite lookup_clean_record, decide_True by done.
  destruct (r !! f) as [[| | |t]|]; simpl; try done.
  intros [= <-]. apply clean_whitespace_idemp.
Qed.

Lemma clean_string_fields_id fields h data :
  (∀ l, l ∈ data → whitespace_clean fields (deref h l)) →
  clean_string_fields fields h data = h.
Proof.
  intros Hdata. apply map_eq. intros l. rewrite lookup_clean_string_fields.
  case_decide as Hl; [|done].
  specialize (Hdata l Hl). unfold deref in Hdata.
  destruct (h !! l) as [r|]; simpl in *; [|done].
  by rewrite clean_record_id.
Qed.

(** ** The stages of [clean_dataset] *)

Section stages.
Context (c : config).

(** [clean_dataset] is its four stages in sequence, each count the loss of
    length over its stage. *)
Lemma clean_dataset_stages h records :
  let d1 := dedup_stage c h records in
  let d2 := missing_stage c h d1 in
  let h' := strings_stage c h d2 in
  let d3 := filter_stage c h' d2 in
  clean_dataset h records c
  = (h', {| original_count := len records;
            cleaned_data := d3;
            removed_duplicates := len records - len d1;
            removed_missing := len d1 - len d2;
            removed_invalid := len d2 - len d3;
            final_count := len d3;
            total_removed := len records - len d3 |}).
Proof.
  unfold clean_dataset, dedup_stage, missing_stage, strings_stage, filter_stage.
  destruct (dedup_key c), (truthy_list (cfg_required_fields c)),
    (truthy_list (cfg_string_fields c)), (truthy_list (cfg_filters c));
    cbv zeta; repeat f_equal; lia.
Qed.

Lemma dedup_stage_sublist h data : sublist (dedup_stage c h data) data.
Proof.
  unfold dedup_stage. destruct (dedup_key c); [|done].
  apply remove_duplicate_dicts_sublist.
Qed.

Lemma missing_stage_sublist h data : sublist (missing_stage c h data) data.
Proof.
  unfold missing_stage. destruct (truthy_list _); [|done].
  rewrite remove_records_with_missing_fields_filter. apply sublist_filter.
Qed.

Lemma filter_stage_sublist h data : sublist (filter_stage c h data) data.
Proof.
  unfold filter_stage. destruct (truthy_list _); [|done].
  rewrite filter_records_by_criteria_filter. apply sublist_filter.
Qed.

Lemma dedup_stage_stable h data kept :
  sublist kept (dedup_stage c h data) → dedup_stage c h kept = kept.
Proof.
  unfold dedup_stage. destruct (dedup_key c); [|done].
  apply remove_duplicate_dicts_stable.
Qed.

Lemma missing_stage_stable h data kept :
  sublist kept (missing_stage c h data) → missing_stage c h kept = kept.
Proof.
  unfold missing_stage. destruct (truthy_list _); [|done].
  rewrite !remove_records_with_missing_fields_filter. apply filter_stable.
Qed.

Lemma filter_stage_stable h data kept :
  sublist kept (filter_stage c h data) → filter_stage c h kept = kept.
Proof.
  unfold filter_stage. destruct (truthy_list _); [|done].
  rewrite !filter_records_by_criteria_filter. apply filter_stable.
Qed.

Lemma lookup_strings_stage h data (l : loc) :
  strings_stage c h data !! l
  = if decide (l ∈ data) then normalise c <$> h !! l else h !! l.
Proof.
  unfold strings_stage, normalise. destruct (truthy_list _).
  - apply lookup_clean_string_fields.
  - case_decide; [|done]. by destruct (h !! l).
Qed.

Lemma strings_stage_id h data :
  (∀ l, l ∈ data → normalised c (deref h l)) → strings_stage c h data = h.
Proof.
  unfold strings_stage, normalised. intros Hdata.
  destruct (truthy_list _) as [fields|]; [|done].
  apply clean_string_fields_id. intros l Hl. by apply Hdata.
Qed.

Lemma normalise_normalised r : normalised c (normalise c r).
Proof.
  unfold normalised, normalise. intros fields ->. apply clean_record_clean.
Qed.

(** On records whose string fields need no normalising, the output of the
    stages is left alone by every stage. *)
Lemma stages_stable h records :
  (∀ l, l ∈ records → normalised c (deref h l)) →
  let d2 := missing_stage c h (dedup_stage c h records) in
  let d3 := filter_stage c h d2 in
  strings_stage c h d2 = h
  ∧ dedup_stage c h d3 = d3
  ∧ missing_stage c h d3 = d3
  ∧ strings_stage c h d3 = h
  ∧ filter_stage c h d3 = d3.
Proof.
  intros Hclean d2 d3.
  assert (sublist (dedup_stage c h records) records) as Hd1
    by apply dedup_stage_sublist.
  assert (sublist d2 (dedup_stage c h records)) as Hd2
    by apply missing_stage_sublist.
  assert (sublist d3 d2) as Hd3 by apply filter_stage_sublist.
  assert (∀ l, l ∈ d2 → l ∈ records) as Hin2.
  { intros l Hl. do 2 (eapply elem_of_sublist; [|done]). done. }
  repeat split.
  - apply strings_stage_id. auto.
  - apply (dedup_stage_stable h records). by etrans.
  - by apply (missing_stage_stable h (dedup_stage c h records)).
  - apply strings_stage_id. intros l Hl. apply Hclean, Hin2.
    by eapply elem_of_sublist.
  - by apply (filter_stage_stable h d2).
Qed.

(** After the string stage the records it went through are normalised. *)
Lemma strings_stage_normalised h data l :
  l ∈ data → normalised c (deref (strings_stage c h data) l).
Proof.
  intros Hl. unfold deref. rewrite lookup_strings_stage, decide_True by done.
  destruct (h !! l) as [r|]; simpl; [apply normalise_normalised|].
  by intros fields _ field s _ ?.
Qed.

End stages.

(** ** Theorems about [clean_dataset] *)

(** The run of [run_examples], section 7: of five records one is a duplicate
    and one lacks data, and the name of the first is trimmed. *)
Example clean_dataset_demo :
  let out := clean_dataset demo_store [0; 1; 2; 3; 4] demo_config in
  out.2 = {| original_count := 5; cleaned_data := [0; 1; 4];
             removed_duplicates := 1; removed_missing := 1;
             removed_invalid := 0; final_count := 3; total_removed := 2 |}
  ∧ deref out.1 0 !! "name" = Some (VStr (py "Alice")).
Proof. split; reflexivity. Qed.

(** C1. The counts of a [clean_dataset] result add up:
    [original_count - total_removed = final_count], [total_removed] is the sum
    of the three per-stage counts, and a stage that the configuration leaves
    out counts zero. *)
Theorem clean_dataset_counts (h : store) (records : list loc) (c : config) :
  let r := (clean_dataset h records c).2 in
  (original_count r - total_removed r = final_count r)%Z
  ∧ (total_removed r = removed_duplicates r + removed_missing r + removed_invalid r)%Z
  ∧ original_count r = len records
  ∧ final_count r = len (cleaned_data r)
  ∧ (dedup_key c = None → removed_duplicates r = 0%Z)
  ∧ (truthy_list (cfg_required_fields c) = None → removed_missing r = 0%Z)
  ∧ (truthy_list (cfg_filters c) = None → removed_invalid r = 0%Z).
Proof.
  rewrite clean_dataset_stages. cbv zeta. cbn [snd original_count total_removed
    final_count removed_duplicates removed_missing removed_invalid cleaned_data].
  repeat split; try lia.
  - unfold dedup_stage. intros ->. lia.
  - unfold missing_stage. intros ->. lia.
  - unfold filter_stage. intros ->. lia.
Qed.

(** C10. The dataset [clean_dataset] returns is a subsequence of the one it
    was given: the same objects, none added or repeated, in their original
    order.  Each returned record holds its input contents with the configured
    string fields whitespace-normalised, and no object of the store changes in
    any other way. *)
Theorem clean_dataset_subsequence (h : store) (records : list loc) (c : config) :
  let h' := (clean_dataset h records c).1 in
  let r := (clean_dataset h records c).2 in
  sublist (cleaned_data r) records
  ∧ (∀ l, l ∈ cleaned_data r → l ∈ records ∧ h' !! l = normalise c <$> h !! l)
  ∧ (∀ l, h' !! l = h !! l ∨ h' !! l = normalise c <$> h !! l).
Proof.
  rewrite clean_dataset_stages. cbv zeta. cbn [fst snd cleaned_data].
  set (d1 := dedup_stage c h records). set (d2 := missing_stage c h d1).
  assert (sublist d2 records) as Hd2.
  { etrans; [apply missing_stage_sublist|apply dedup_stage_sublist]. }
  split; [|split].
  - etrans; [apply filter_stage_sublist|done].
  - intros l Hl. eapply elem_of_sublist in Hl; [|apply filter_stage_sublist].
    split; [by eapply elem_of_sublist|].
    by rewrite lookup_strings_stage, decide_True.
  - intros l. rewrite lookup_strings_stage. case_decide; auto.
Qed.

(** C2, as stated, fails.  The first run keeps both records, since ["a"] and
    [" a"] differ when duplicates are removed, and then normalises both names
    to ["a"]; run again on its own output, [clean_dataset] finds the second a
    duplicate of the first and removes it. *)
Lemma clean_dataset_twice_removes :
  let first := clean_dataset blank_store [0; 1] blank_config in
  let second := clean_dataset first.1 (cleaned_data first.2) blank_config in
  cleaned_data first.2 = [0; 1]
  ∧ total_removed second.2 = 1%Z
  ∧ cleaned_data second.2 = [0].
Proof. vm_compute. done. Qed.

(** The other way a second run finds work: a required field of blanks passes
    the first run, since it is not [''], is normalised to [''], and is missing
    to the second run. *)
Example clean_dataset_twice_blank_field :
  let h : store := {[ 0 := {[ "name" := VStr (py "  ") ]} ]} in
  let c := {| cfg_remove_duplicates := None; cfg_duplicate_key := None;
              cfg_required_fields := Some ["name"];
              cfg_string_fields := Some ["name"]; cfg_filters := None |} in
  let first := clean_dataset h [0] c in
  let second := clean_dataset first.1 (cleaned_data first.2) c in
  cleaned_data first.2 = [0]
  ∧ removed_missing second.2 = 1%Z
  ∧ cleaned_data second.2 = [].
Proof. vm_compute. done. Qed.

(** The duplicate stage reads the records through their key values only,
    and the missing-field stage through [field_missing]. *)
Lemma remove_duplicate_dicts_ext h1 h2 records key :
  (∀ l, l ∈ records → key_of h1 key l = key_of h2 key l) →
  remove_duplicate_dicts h1 records key = remove_duplicate_dicts h2 records key.
Proof.
  unfold remove_duplicate_dicts. generalize (@nil value) as seen.
  induction records as [|r rest IH]; intros seen Hkeys; [done|].
  cbn [remove_duplicate_dicts_loop]. fold (key_of h1 key r) (key_of h2 key r).
  rewrite (Hkeys r) by apply list_elem_of_here.
  rewrite !IH by (intros l Hl; by apply Hkeys, list_elem_of_further). done.
Qed.

Lemma remove_records_with_missing_fields_ext h1 h2 records fields :
  (∀ l, l ∈ records →
     has_all_fields (deref h1 l) fields = has_all_fields (deref h2 l) fields) →
  remove_records_with_missing_fields h1 records fields
  = remove_records_with_missing_fields h2 records fields.
Proof.
  induction records as [|r rest IH]; intros Hall; [done|]. simpl.
  rewrite (Hall r) by apply list_elem_of_here.
  rewrite IH by (intros l Hl; by apply Hall, list_elem_of_further). done.
Qed.

Lemma has_all_fields_ext r1 r2 fields :
  (∀ field, field ∈ fields → field_missing r1 field = field_missing r2 field) →
  has_all_fields r1 fields = has_all_fields r2 fields.
Proof.
  induction fields as [|f rest IH]; intros Hf; [done|]. simpl.
  rewrite (Hf f) by apply list_elem_of_here.
  rewrite IH by (intros g Hg; by apply Hf, list_elem_of_further). done.
Qed.

Lemma normalise_empty c : normalise c ∅ = ∅.
Proof.
  unfold normalise. destruct (truthy_list _) as [fields|]; [|done].
  apply clean_record_id. intros f s _. by rewrite lookup_empty.
Qed.

Lemma deref_strings_stage c h data l :
  l ∈ data → deref (strings_stage c h data) l = normalise c (deref h l).
Proof.
  intros Hl. unfold deref. rewrite lookup_strings_stage, decide_True by done.
  destruct (h !! l); simpl; [done|]. by rewrite normalise_empty.
Qed.

(** A record whose string fields are normalised already is left alone by
    the string stage altogether. *)
Lemma normalised_safe c r : normalised c r → normalise_safe c r.
Proof.
  intros Hr. assert (normalise c r = r) as E.
  { unfold normalise. destruct (truthy_list _) as [fields|] eqn:E; [|done].
    by apply clean_record_id, Hr. }
  unfold normalise_safe. rewrite E. by split.
Qed.

(** C2, amended.  When normalising the configured string fields of an input
    record changes neither its value under the duplicate key nor whether one
    of its required fields is missing (as is the case when no [string_fields]
    are configured, or when they are normalised already), a second run of
    [clean_dataset] on the output of the first, with the same configuration,
    removes nothing: its [total_removed] is [0], its [cleaned_data] is its
    input, and it leaves the store as it was. *)
Theorem clean_dataset_twice (h : store) (records : list loc) (c : config) :
  (∀ l, l ∈ records → normalise_safe c (deref h l)) →
  let first := clean_dataset h records c in
  let second := clean_dataset first.1 (cleaned_data first.2) c in
  total_removed second.2 = 0%Z
  ∧ cleaned_data second.2 = cleaned_data first.2
  ∧ second.1 = first.1.
Proof.
  intros Hsafe. cbv zeta.
  rewrite (clean_dataset_stages c h records). cbv zeta.
  cbn [fst snd cleaned_data].
  set (d1 := dedup_stage c h records). set (d2 := missing_stage c h d1).
  set (h1 := strings_stage c h d2). set (d3 := filter_stage c h1 d2).
  assert (sublist d1 records) as H1 by apply dedup_stage_sublist.
  assert (sublist d2 d1) as H2 by apply missing_stage_sublist.
  assert (sublist d3 d2) as H3 by apply filter_stage_sublist.
  assert (∀ l, l ∈ d3 → l ∈ d2) as Hd2.
  { intros l Hl. by eapply elem_of_sublist. }
  assert (∀ l, l ∈ d3 → normalise_safe c (deref h l)) as Hsafe3.
  { intros l Hl. apply Hsafe. do 3 (eapply elem_of_sublist; [|done]). done. }
  assert (dedup_stage c h1 d3 = d3) as E1.
  { transitivity (dedup_stage c h d3).
    - unfold dedup_stage. destruct (dedup_key c) as [key|] eqn:Hkey; [|done].
      apply remove_duplicate_dicts_ext. intros l Hl. unfold key_of, h1.
      rewrite deref_strings_stage by auto. by apply (Hsafe3 l Hl).
    - apply (dedup_stage_stable c h records). by etrans. }
  assert (missing_stage c h1 d3 = d3) as E2.
  { transitivity (missing_stage c h d3).
    - unfold missing_stage.
      destruct (truthy_list (cfg_required_fields c)) as [fields|] eqn:Hf; [|done].
      apply remove_records_with_missing_fields_ext. intros l Hl. unfold h1.
      rewrite deref_strings_stage by auto.
      apply has_all_fields_ext. by apply (Hsafe3 l Hl).
    - apply (missing_stage_stable c h d1). by etrans. }
  assert (strings_stage c h1 d3 = h1) as E3.
  { apply strings_stage_id. intros l Hl. apply strings_stage_normalised. auto. }
  assert (filter_stage c h1 d3 = d3) as E4
    by by apply (filter_stage_stable c h1 d2).
  rewrite (clean_dataset_stages c h1 d3). cbv zeta.
  cbn [fst snd cleaned_data total_removed].
  rewrite E1, E2, E3, E4. split; [lia|done].
Qed.

Lemma clean_dataset_twice_witness :
  let first := clean_dataset demo_store [0; 1; 2; 3; 4] demo_config in
  let second := clean_dataset first.1 (cleaned_data first.2) demo_config in
  total_removed second.2 = 0%Z
  ∧ cleaned_data second.2 = cleaned_data first.2
  ∧ second.1 = first.1.
Proof.
  apply (clean_dataset_twice demo_store [0; 1; 2; 3; 4] demo_config).
  intros l Hl.
  repeat (apply elem_of_cons in Hl as [->|Hl]); [| | | | |by apply elem_of_nil in Hl];
    (split;
     [ intros key [= <-]; vm_compute; reflexivity
     | intros fields [= <-] field Hfield;
       repeat (apply elem_of_cons in Hfield as [->|Hfield]);
       try (by apply elem_of_nil in Hfield); vm_compute; reflexivity ]).
Defined.

(** Whatever the input, the output of [clean_dataset] has its string fields
    normalised, so the run after the next one finds nothing left to remove:
    [clean_dataset] reaches a fixed point after at most two runs. *)
Theorem clean_dataset_thrice (h : store) (records : list loc) (c : config) :
  let first := clean_dataset h records c in
  let second := clean_dataset first.1 (cleaned_data first.2) c in
  let third := clean_dataset second.1 (cleaned_data second.2) c in
  total_removed third.2 = 0%Z
  ∧ cleaned_data third.2 = cleaned_data second.2
  ∧ third.1 = second.1.
Proof.
  cbv zeta. rewrite (clean_dataset_stages c h records). cbv zeta.
  cbn [fst snd cleaned_data].
  set (d2 := missing_stage c h (dedup_stage c h records)).
  set (h1 := strings_stage c h d2). set (d3 := filter_stage c h1 d2).
  assert (∀ l, l ∈ d3 → normalised c (deref h1 l)) as Hclean.
  { intros l Hl. apply strings_stage_normalised.
    eapply elem_of_sublist; [done|]. apply filter_stage_sublist. }
  destruct (stages_stable c h1 d3 Hclean) as (E1 & E2 & E3 & E4 & E5).
  rewrite (clean_dataset_stages c h1 d3). cbv zeta in *.
  cbn [fst snd cleaned_data]. rewrite E1.
  rewrite clean_dataset_stages. cbv zeta.
  cbn [fst snd cleaned_data total_removed].
  rewrite E2, E3, E4, E5. repeat split. lia.
Qed.

(** ** Floats: order and signs *)

Lemma Prim2SF_not_nan x : PrimFloat.is_nan x = false → Prim2SF x ≠ S754_nan.
Proof.
  unfold PrimFloat.is_nan. rewrite FloatAxioms.eqb_spec. intros H E.
  rewrite E in H. done.
Qed.

Lemma SFcompare_not_nan x y :
  x ≠ S754_nan → y ≠ S754_nan → is_Some (SFcompare x y).
Proof. destruct x, y; simpl; eauto; done. Qed.

Lemma SFcompare_antisym x y c :
  SFcompare x y = Some c → SFcompare y x = Some (CompOpp c).
Proof.
  destruct x as [sx|sx| |sx mx ex], y as [sy|sy| |sy my ey]; simpl;
    try done; try (intros [= <-]; by repeat case_match).
  intros [= <-]. f_equal. destruct sx, sy; try done.
  - rewrite (Z.compare_antisym ex ey). destruct (ex ?= ey)%Z; simpl; try done.
    by rewrite (Pos.compare_cont_antisym mx my Eq).
  - rewrite (Z.compare_antisym ex ey). destruct (ex ?= ey)%Z; simpl; try done.
    by rewrite (Pos.compare_cont_antisym mx my Eq).
Qed.

Lemma float_ltb_leb x y : (x <? y)%float = true → (x <=? y)%float = true.
Proof.
  rewrite ltb_spec, leb_spec. unfold SFltb, SFleb.
  by destruct (SFcompare _ _) as [[]|].
Qed.

Lemma float_not_ltb_leb x y :
  PrimFloat.is_nan x = false → PrimFloat.is_nan y = false →
  (y <? x)%float = false → (x <=? y)%float = true.
Proof.
  intros Hx%Prim2SF_not_nan Hy%Prim2SF_not_nan.
  rewrite ltb_spec, leb_spec. unfold SFltb, SFleb.
  destruct (SFcompare_not_nan _ _ Hy Hx) as [c Hc].
  rewrite Hc, (SFcompare_antisym _ _ _ Hc). by destruct c.
Qed.

(** ** Sorting and indexing *)

Lemma insort_Permutation x s : insort x s ≡ₚ x :: s.
Proof.
  induction s as [|y s IH]; simpl; [done|].
  destruct (y <? x)%float; [|done]. rewrite IH. apply Permutation_swap.
Qed.

Lemma sorted_Permutation data : sorted data ≡ₚ data.
Proof.
  induction data as [|x data IH]; simpl; [done|].
  fold (sorted data). by rewrite insort_Permutation, IH.
Qed.

Lemma length_sorted data : length (sorted data) = length data.
Proof. apply Permutation_length, sorted_Permutation. Qed.

Lemma insort_ascending x s :
  PrimFloat.is_nan x = false → no_nan s → ascending s → ascending (insort x s).
Proof.
  unfold ascending, no_nan. intros Hx Hs Hasc.
  induction Hasc as [|y s Hasc IH Hhd]; simpl.
  { by repeat constructor. }
  apply Forall_cons in Hs as [Hy Hs].
  destruct (y <? x)%float eqn:Hlt.
  - constructor; [by apply IH|].
    destruct Hhd as [|z s Hyz]; simpl.
    + constructor. by apply float_ltb_leb.
    + destruct (z <? x)%float; constructor; [done|by apply float_ltb_leb].
  - constructor; [by constructor|]. constructor. by apply float_not_ltb_leb.
Qed.

Lemma sorted_ascending data : no_nan data → ascending (sorted data).
Proof.
  induction 1 as [|x data Hx Hdata IH]; simpl; [constructor|].
  fold (sorted data). apply insort_ascending; [done| |done].
  unfold no_nan. by rewrite sorted_Permutation.
Qed.

Lemma index_in_range {A} (l : list A) (i : Z) :
  (0 ≤ i < len l)%Z → index l i = l !! Z.to_nat i ∧ is_Some (l !! Z.to_nat i).
Proof.
  unfold index, len. intros Hi.
  destruct (Z.ltb_spec i 0); [lia|]. split; [done|].
  apply lookup_lt_is_Some_2. lia.
Qed.

Lemma floor_div_in_range (a b n : nat) :
  (0 < n)%nat → (0 < b)%nat → (a < b)%nat →
  (0 ≤ Z.of_nat a * Z.of_nat n / Z.of_nat b < Z.of_nat n)%Z
  ∧ Z.to_nat (Z.of_nat a * Z.of_nat n / Z.of_nat b) = (a * n / b)%nat.
Proof.
  intros Hn Hb Hab. split; [split|].
  - apply Z.div_pos; lia.
  - apply Z.div_lt_upper_bound; nia.
  - rewrite <- Nat2Z.inj_mul, <- Nat2Z.inj_div. apply Nat2Z.id.
Qed.

(** ** Floats: what is never negative *)

Lemma binary_round_aux_not_negative m e l :
  SFnot_negative (binary_round_aux prec emax false m e l).
Proof.
  unfold binary_round_aux.
  destruct (shr_fexp prec emax m e l) as [mrs e'].
  destruct (shr_fexp prec emax _ e' loc_Exact) as [mrs' e''].
  destruct (shr_m mrs'); [done| |done]. by destruct (_ <=? _)%Z.
Qed.

Lemma binary_normalize_not_negative (n : Z) :
  (0 ≤ n)%Z → SFnot_negative (binary_normalize prec emax n 0 false).
Proof.
  destruct n as [|p|p]; [done| |lia]. intros _. simpl. unfold binary_round.
  destruct (shl_align _ _ _). apply binary_round_aux_not_negative.
Qed.

Lemma float_of_int_not_negative n : not_negative (float_of_int n).
Proof.
  unfold not_negative, float_of_int. rewrite of_uint63_spec.
  apply binary_normalize_not_negative, Uint63.to_Z_bounded.
Qed.

Lemma square_not_negative x : not_negative (x * x).
Proof.
  unfold not_negative. rewrite mul_spec. unfold SF64mul.
  destruct (Prim2SF x) as [s|s| |s m e]; simpl; try done; try by destruct s.
  replace (xorb s s) with false by by destruct s.
  apply binary_round_aux_not_negative.
Qed.

Lemma add_not_negative x y :
  not_negative x → not_negative y → not_negative (x + y).
Proof.
  unfold not_negative. rewrite add_spec. unfold SF64add.
  destruct (Prim2SF x) as [[]|[]| |[] mx ex], (Prim2SF y) as [[]|[]| |[] my ey];
    simpl; try done.
  intros _ _. unfold binary_round.
  destruct (shl_align _ _ _). apply binary_round_aux_not_negative.
Qed.

Lemma div_not_negative x y :
  not_negative x → not_negative y → not_negative (x / y).
Proof.
  unfold not_negative. rewrite div_spec. unfold SF64div.
  destruct (Prim2SF x) as [[]|[]| |[] mx ex], (Prim2SF y) as [[]|[]| |[] my ey];
    simpl; try done.
  intros _ _. destruct (SFdiv_core_binary _ _ _ _ _ _) as [[mz ez] lz].
  apply binary_round_aux_not_negative.
Qed.

Lemma sum_not_negative data : Forall not_negative data → not_negative (sum data).
Proof.
  unfold sum. assert (not_negative 0) as H0 by done. revert H0.
  generalize 0%float as acc. intros acc Hacc Hall. revert acc Hacc.
  induction Hall as [|x data Hx _ IH]; intros acc Hacc; simpl; [done|].
  apply IH. by apply add_not_negative.
Qed.

Lemma float_pow_2_not_negative x y : float_pow_2 x = Some y → not_negative y.
Proof.
  unfold float_pow_2. destruct (PrimFloat.is_nan x); [by intros [= <-]|].
  destruct (PrimFloat.is_infinity x); [by intros [= <-]|]. cbv zeta.
  destruct (PrimFloat.is_infinity _); [done|]. intros [= <-].
  apply square_not_negative.
Qed.

Lemma float_pow_half_is_Some x : not_negative x → is_Some (float_pow_half x).
Proof.
  unfold float_pow_half, not_negative. intros Hx.
  destruct (PrimFloat.is_nan x); [eauto|].
  destruct (PrimFloat.is_infinity x); [eauto|].
  destruct (x =? 0)%float; [eauto|].
  rewrite ltb_spec. change (Prim2SF 0) with (S754_zero false).
  unfold SFltb. destruct (Prim2SF x) as [[]|[]| |[] m e]; simpl; eauto; done.
Qed.

(** ** Outliers *)

(** The run of [run_examples], section 3. *)
Example filter_outliers_demo :
  filter_outliers data_with_outliers "iqr"
  = Some [10; 12; 13; 12; 11; 13; 12; 11; 14]%float.
Proof. by vm_compute. Qed.

(** C5, as stated, fails where the bounds are not floats.  Of the five
    numbers, [Q1] is [1e16] and [Q3] is [1e16 + 2], so the lower bound
    [Q1 - 1.5 * (Q3 - Q1)] is [9999999999999997]; the code computes
    [1e16 - 3.0], which is rounded to [9999999999999996], and keeps the
    first number, which lies below the bound. *)
Lemma filter_outliers_iqr_rounds :
  sorted data_near_1e16 = data_near_1e16
  ∧ filter_outliers data_near_1e16 "iqr" = Some data_near_1e16
  ∧ exact_value <$> data_near_1e16
    = [Some 9999999999999996; Some 10000000000000000; Some 10000000000000000;
       Some 10000000000000002; Some 10000000000000002]%Q
  ∧ (9999999999999996
     < 10000000000000000 - (3 # 2) * (10000000000000002 - 10000000000000000))%Q.
Proof. repeat split; by vm_compute. Qed.

Lemma filter_outliers_iqr_unfold (data : list double) :
  data ≠ [] →
  ∃ q1 q3,
    sorted data !! (length data / 4)%nat = Some q1
    ∧ sorted data !! (3 * length data / 4)%nat = Some q3
    ∧ filter_outliers data "iqr"
      = Some (List.filter
                (λ x, (q1 - 1.5 * (q3 - q1) <=? x)%float
                      && (x <=? q3 + 1.5 * (q3 - q1))%float) data).
Proof.
  intros Hne.
  assert (0 < length data)%nat as Hlen by (destruct data; [done|simpl; lia]).
  destruct (floor_div_in_range 1 4 (length data)) as [R1 N1]; [lia..|].
  destruct (floor_div_in_range 3 4 (length data)) as [R3 N3]; [lia..|].
  rewrite Z.mul_1_l in R1, N1. rewrite Nat.mul_1_l in N1.
  destruct (index_in_range (sorted data) (len (sorted data) / 4)) as [E1 [q1 H1]].
  { unfold len. by rewrite length_sorted. }
  destruct (index_in_range (sorted data) (3 * len (sorted data) / 4)) as [E3 [q3 H3]].
  { unfold len. by rewrite length_sorted. }
  exists q1, q3.
  unfold len in *. rewrite length_sorted in *.
  change (Z.of_nat 4) with 4%Z in *. change (Z.of_nat 3) with 3%Z in *.
  rewrite N1 in H1, E1. rewrite N3 in H3, E3.
  do 2 (split; [done|]).
  unfold filter_outliers. destruct data as [|x data]; [done|].
  rewrite bool_decide_eq_true_2 by done. unfold len. rewrite length_sorted.
  cbv zeta. rewrite E1, H1. cbn [mbind option_bind]. by rewrite E3, H3.
Qed.

(** C5, amended.  For a non-empty list without not-a-number,
    [filter_outliers] with method ['iqr'] takes [Q1] and [Q3] at the indices
    [n // 4] and [3 * n // 4] of the sorted list and returns the elements of
    the input between [Q1 - 1.5 * (Q3 - Q1)] and [Q3 + 1.5 * (Q3 - Q1)], both
    included, in the order of the input; the two bounds are the floats the
    code computes, each subtraction, product and sum rounded. *)
Theorem filter_outliers_iqr (data : list double) :
  data ≠ [] → no_nan data →
  ∃ q1 q3,
    sorted data ≡ₚ data ∧ ascending (sorted data)
    ∧ sorted data !! (length data / 4)%nat = Some q1
    ∧ sorted data !! (3 * length data / 4)%nat = Some q3
    ∧ filter_outliers data "iqr"
      = Some (List.filter
                (λ x, (q1 - 1.5 * (q3 - q1) <=? x)%float
                      && (x <=? q3 + 1.5 * (q3 - q1))%float) data).
Proof.
  intros Hne Hnan.
  destruct (filter_outliers_iqr_unfold data Hne) as (q1 & q3 & H1 & H3 & Hout).
  exists q1, q3.
  split; [apply sorted_Permutation|]. split; [by apply sorted_ascending|]. done.
Qed.

Lemma filter_outliers_iqr_witness :
  ∃ q1 q3,
    sorted data_with_outliers ≡ₚ data_with_outliers
    ∧ ascending (sorted data_with_outliers)
    ∧ sorted data_with_outliers !! (length data_with_outliers / 4)%nat = Some q1
    ∧ sorted data_with_outliers !! (3 * length data_with_outliers / 4)%nat = Some q3
    ∧ filter_outliers data_with_outliers "iqr"
      = Some (List.filter
                (λ x, (q1 - 1.5 * (q3 - q1) <=? x)%float
                      && (x <=? q3 + 1.5 * (q3 - q1))%float) data_with_outliers).
Proof.
  apply (filter_outliers_iqr data_with_outliers); [discriminate|].
  unfold no_nan, data_with_outliers. repeat constructor.
Defined.

(** C9. For a non-empty list, a [method] that is neither ['iqr'] nor ['std']
    makes [filter_outliers] return its input as it is, and not fail. *)
Theorem filter_outliers_unknown_method (data : list double) (method : string) :
  data ≠ [] → method ≠ "iqr" → method ≠ "std" →
  filter_outliers data method = Some data.
Proof.
  intros Hne Hiqr Hstd. unfold filter_outliers.
  destruct data as [|x data]; [done|].
  by rewrite !bool_decide_eq_false_2.
Qed.

Lemma filter_outliers_unknown_method_witness :
  filter_outliers data_with_outliers "zscore" = Some data_with_outliers.
Proof.
  apply (filter_outliers_unknown_method data_with_outliers "zscore");
    discriminate.
Defined.

(** ** Statistics *)



Lemma mapM_None {A B} (f : A → option B) (l : list A) :
  mapM f l = None ↔ ∃ x, x ∈ l ∧ f x = None.
Proof.
  rewrite eq_None_not_Some, mapM_is_Some, Forall_forall. split.
  - intros Hn. induction l as [|a l IH].
    { destruct Hn. by intros ? ?%elem_of_nil. }
    destruct (f a) eqn:Ha.
    + destruct IH as (x & Hx & Hfx).
      * intros Hall. apply Hn. intros y [->|Hy]%elem_of_cons; [|by apply Hall].
        simpl. by rewrite Ha.
      * exists x. split; [by apply list_elem_of_further|done].
    + exists a. split; [apply list_elem_of_here|done].
  - intros (x & Hx & Hfx) Hall. specialize (Hall x Hx). simpl in Hall.
    rewrite Hfx in Hall. by destruct Hall.
Qed.

Lemma mapM_float_pow_2_not_negative (f : double → double) numbers squares :
  mapM (λ x, float_pow_2 (f x)) numbers = Some squares →
  Forall not_negative squares.
Proof.
  intros H%mapM_Some_1. induction H as [|x y l k Hxy _ IH]; [done|].
  constructor; [by eapply float_pow_2_not_negative|done].
Qed.

(** The square root of the variance is always a float. *)
Lemma std_dev_is_Some (f : double → double) numbers squares n :
  mapM (λ x, float_pow_2 (f x)) numbers = Some squares →
  is_Some (float_pow_half (sum squares / float_of_int n)).
Proof.
  intros H%mapM_float_pow_2_not_negative.
  apply float_pow_half_is_Some, div_not_negative.
  - by apply sum_not_negative.
  - apply float_of_int_not_negative.
Qed.



(** ** Filling missing values *)

Lemma present_nil data : present data = [] ↔ Forall (λ x, x = None) data.
Proof.
  unfold present. induction data as [|[v|] rest IH]; simpl.
  - split; [constructor|done].
  - split; [done|]. by intros [? _]%Forall_cons_1.
  - rewrite IH. split; [by constructor|]. by intros [_ ?]%Forall_cons_1.
Qed.

Lemma lookup_fill_with fill_value data (i : nat) :
  fill_with fill_value data !! i
  = match data !! i with
    | Some (Some v) => Some (Some v)
    | Some None => Some (Some fill_value)
    | None => None
    end.
Proof.
  unfold fill_with. rewrite list_lookup_fmap.
  by destruct (data !! i) as [[v|]|].
Qed.

Lemma fill_missing_values_default data :
  fill_missing_values data None
  = if decide (present data = []) then data
    else fill_with (mean_of_present data) data.
Proof.
  unfold fill_missing_values, mean_of_present. fold (present data).
  by destruct (present data).
Qed.

(** C7, as stated, fails: the sum of two numbers near the largest float is
    [inf], and so is the value filled in, though the mean of the two numbers
    is the number itself; and for three entries [0.1] the value filled in is
    the next float above [0.1]. *)
Lemma fill_missing_values_mean_rounds :
  fill_missing_values [Some 1e308; Some 1e308; None]%float None
  = [Some 1e308; Some 1e308; Some PrimFloat.infinity]%float
  ∧ fill_missing_values [Some 0.1; Some 0.1; Some 0.1; None]%float None
    = [Some 0.1; Some 0.1; Some 0.1; Some 0.10000000000000002]%float
  ∧ (0.1 <? 0.10000000000000002)%float = true.
Proof. repeat split; by vm_compute. Qed.

(** C7, amended.  Without an explicit fill value, [fill_missing_values] returns its
    input when every entry is [None]; otherwise it puts the mean of the
    entries that are numbers, computed in floating point as their sum from
    the left divided by their count, in the place of each [None] and keeps
    the other entries where they are.  On [[10, None, 20, None, 30, 40]] the
    result is [[10, 25, 20, 25, 30, 40]]. *)
Theorem fill_missing_values_mean (data : list (option double)) :
  (Forall (λ x, x = None) data → fill_missing_values data None = data)
  ∧ (¬ Forall (λ x, x = None) data →
     length (fill_missing_values data None) = length data
     ∧ ∀ i : nat,
         fill_missing_values data None !! i
         = match data !! i with
           | Some (Some v) => Some (Some v)
           | Some None => Some (Some (mean_of_present data))
           | None => None
           end)
  ∧ fill_missing_values [Some 10; None; Some 20; None; Some 30; Some 40]%float None
    = [Some 10; Some 25; Some 20; Some 25; Some 30; Some 40]%float.
Proof.
  split; [|split; [|by vm_compute]].
  - intros Hall%present_nil. by rewrite fill_missing_values_default, decide_True.
  - intros Hsome. rewrite <- present_nil in Hsome.
    rewrite fill_missing_values_default, decide_False by done.
    split; [apply length_fmap|]. intros i. apply lookup_fill_with.
Qed.

(** ** Phone numbers *)

(** The numbers of [run_examples], section 8, all come out the same. *)
Example standardize_phone_numbers_demo (decimal : char → bool) :
  Forall (λ phone, standardize_phone_numbers decimal (py phone) = py "(123) 456-7890")
    ["123-456-7890"; "(123) 456-7890"; "1234567890"; "123.456.7890"].
Proof. repeat constructor. Qed.

(** C8. [standardize_phone_numbers] drops every character that is not a
    digit.  When exactly ten digits are left it returns them as
    [(AAA) BBB-CCCC]; otherwise it returns the digits alone.  It is total: no
    digit count makes it fail.  ["(123) 456-7890"] comes back as it is and
    ["123"] gives ["123"]. *)
Theorem standardize_phone_numbers_spec (decimal : char → bool) (phone : str) :
  let digits := List.filter (re_digit decimal) phone in
  let result := standardize_phone_numbers decimal phone in
  sublist digits phone
  ∧ (∀ c, c ∈ digits ↔ c ∈ phone ∧ re_digit decimal c = true)
  ∧ (length digits = 10%nat →
     ∃ a b c, digits = a ++ b ++ c
       ∧ length a = 3%nat ∧ length b = 3%nat ∧ length c = 4%nat
       ∧ result = py "(" ++ a ++ py ") " ++ b ++ py "-" ++ c)
  ∧ (length digits ≠ 10%nat → result = digits)
  ∧ standardize_phone_numbers decimal (py "(123) 456-7890") = py "(123) 456-7890"
  ∧ standardize_phone_numbers decimal (py "123") = py "123".
Proof.
  cbv zeta. unfold standardize_phone_numbers, len.
  set (digits := List.filter (re_digit decimal) phone).
  split; [|split; [|split; [|split; [|split]]]].
  - subst digits. induction phone as [|c rest IH]; simpl; [done|].
    destruct (re_digit decimal c); by constructor.
  - intros c. subst digits. rewrite !list_elem_of_In, filter_In. done.
  - intros Hlen. rewrite bool_decide_eq_true_2 by lia.
    exists (take 3 digits), (take 3 (drop 3 digits)), (drop 6 digits).
    split.
    { rewrite <- (take_drop 3 digits) at 1. f_equal.
      rewrite <- (take_drop 3 (drop 3 digits)) at 1. by rewrite drop_drop. }
    rewrite !length_take, !length_drop, Hlen. done.
  - intros Hlen. rewrite bool_decide_eq_false_2 by lia. done.
  - done.
  - done.
Qed.

(** ** Theorems about the record filters *)

Lemma criteria_match_meets r c : criteria_match r c = true ↔ meets c r.
Proof.
  unfold meets. rewrite criteria_match_true, Forall_forall.
  split; [intros H [k v] Hin; by apply H|intros H k v Hin; by apply (H (k, v))].
Qed.

(** C3, as stated, fails for the criterion value [None]: the lookup of a
    field a record lacks gives [None], which equals that criterion, so the
    record is kept. *)
Lemma filter_records_by_criteria_keeps_missing :
  deref empty_record_store 0 !! "a" = None
  ∧ filter_records_by_criteria empty_record_store [0] [("a", VNone)] = [0].
Proof. split; reflexivity. Qed.

(** C3, amended.  [filter_records_by_criteria] keeps, in order, exactly the
    records on which [record.get(field) == value] holds for every pair of the
    criteria.  A record that lacks a criteria field is excluded when the value
    asked for that field is not [None]; when it is [None], the lacking field
    counts as a match. *)
Theorem filter_records_by_criteria_spec (h : store) (records : list loc) (c : criteria) :
  filter_records_by_criteria h records c
  = filter (λ l, meets c (deref h l)) records
  ∧ (∀ l, l ∈ filter_records_by_criteria h records c
          ↔ l ∈ records
            ∧ ∀ field v, (field, v) ∈ c → py_eq (dict_get (deref h l) field) v = true)
  ∧ (∀ l field v, (field, v) ∈ c → deref h l !! field = None → v ≠ VNone →
       l ∉ filter_records_by_criteria h records c)
  ∧ (∀ l field, deref h l !! field = None →
       py_eq (dict_get (deref h l) field) VNone = true).
Proof.
  assert (filter_records_by_criteria h records c
          = filter (λ l, meets c (deref h l)) records) as Hfilter.
  { rewrite filter_records_by_criteria_filter. apply list_filter_iff.
    intros l. rewrite <- criteria_match_meets. apply Is_true_true. }
  assert (∀ l, l ∈ filter_records_by_criteria h records c
          ↔ l ∈ records
            ∧ ∀ field v, (field, v) ∈ c → py_eq (dict_get (deref h l) field) v = true)
    as Hin.
  { intros l. rewrite Hfilter, list_elem_of_filter, <- criteria_match_meets,
      criteria_match_true. tauto. }
  split; [done|]. split; [done|]. split.
  - intros l field v Hc Hnone Hv [_ Hl]%Hin.
    specialize (Hl field v Hc). unfold dict_get in Hl. rewrite Hnone in Hl.
    cbn [default from_option] in Hl. rewrite py_eq_sym in Hl. by apply py_eq_None in Hl.
  - intros l field Hnone. unfold dict_get. by rewrite Hnone.
Qed.

Lemma filter_records_by_criteria_spec_witness :
  demo_store !! 2 = Some (deref demo_store 2)
  ∧ 2 ∉ filter_records_by_criteria demo_store [0; 1; 2] [("phone", VInt 1)].
Proof.
  split; [reflexivity|].
  destruct (filter_records_by_criteria_spec demo_store [0; 1; 2] [("phone", VInt 1)])
    as (_ & _ & Hmissing & _).
  apply (Hmissing 2 "phone" (VInt 1)).
  - apply list_elem_of_here.
  - reflexivity.
  - discriminate.
Defined.

(** ** Theorems about duplicate removal *)

(** C4, as stated, fails: the first record that lacks the key is dropped
    when a record before it holds [None] under the key. *)
Lemma remove_duplicate_dicts_drops_first_missing :
  deref none_then_missing 0 !! "id" = Some VNone
  ∧ deref none_then_missing 1 !! "id" = None
  ∧ remove_duplicate_dicts none_then_missing [0; 1] "id" = [0].
Proof. repeat split; reflexivity. Qed.

(** C4, amended.  [remove_duplicate_dicts] keeps, in order, the first record
    for each distinct value of [record.get(key)]: a record is kept exactly
    when no record before it has an equal value.  A record without the key
    counts as having the value [None], so the first record whose key is
    missing or [None] is kept, and every record after it that lacks the key
    (or holds [None]) is dropped. *)
Theorem remove_duplicate_dicts_spec (h : store) (key : string) :
  (∀ records,
     sublist (remove_duplicate_dicts h records key) records
     ∧ distinct_keys h key (remove_duplicate_dicts h records key))
  ∧ (∀ records r,
       remove_duplicate_dicts h (records ++ [r]) key
       = remove_duplicate_dicts h records key
         ++ (if seen_mem (key_of h key r) (key_of h key <$> records) then [] else [r]))
  ∧ (∀ r, deref h r !! key = None → key_of h key r = VNone)
  ∧ (∀ records r,
       key_of h key r = VNone →
       (∀ e, e ∈ records → key_of h key e ≠ VNone) →
       remove_duplicate_dicts h (records ++ [r]) key
       = remove_duplicate_dicts h records key ++ [r])
  ∧ (∀ before r between r',
       key_of h key r = VNone → key_of h key r' = VNone →
       remove_duplicate_dicts h (before ++ r :: between ++ [r']) key
       = remove_duplicate_dicts h (before ++ r :: between) key).
Proof.
  assert (∀ records r,
       remove_duplicate_dicts h (records ++ [r]) key
       = remove_duplicate_dicts h records key
         ++ (if seen_mem (key_of h key r) (key_of h key <$> records) then [] else [r]))
    as Hsnoc.
  { intros records r. unfold remove_duplicate_dicts.
    by rewrite loop_snoc, app_nil_r. }
  split; [|split; [done|split; [|split]]].
  - intros records. split; [apply remove_duplicate_dicts_sublist|apply loop_distinct].
  - intros r Hr. unfold key_of, dict_get. by rewrite Hr.
  - intros records r Hr Hnone. rewrite Hsnoc.
    replace (seen_mem _ _) with false; [done|]. symmetry.
    apply seen_mem_false. intros w (e & -> & He)%list_elem_of_fmap.
    rewrite Hr. destruct (py_eq VNone _) eqn:E; [|done].
    rewrite py_eq_sym in E. apply py_eq_None in E. by apply Hnone in He.
  - intros before r between r' Hr Hr'.
    replace (before ++ r :: between ++ [r'])
      with ((before ++ r :: between) ++ [r']) by by rewrite <- app_assoc.
    rewrite Hsnoc.
    replace (seen_mem _ _) with true; [by rewrite app_nil_r|]. symmetry.
    apply seen_mem_true. exists (key_of h key r). split.
    + apply list_elem_of_fmap. exists r. split; [done|].
      apply elem_of_app. right. apply list_elem_of_here.
    + by rewrite Hr, Hr'.
Qed.

Lemma remove_duplicate_dicts_spec_witness :
  remove_duplicate_dicts ids_with_gaps ([0] ++ [1]) "id"
  = remove_duplicate_dicts ids_with_gaps [0] "id" ++ [1]
  ∧ remove_duplicate_dicts ids_with_gaps ([0] ++ 1 :: [2] ++ [3]) "id"
    = remove_duplicate_dicts ids_with_gaps ([0] ++ 1 :: [2]) "id"
  ∧ remove_duplicate_dicts ids_with_gaps [0; 1; 2; 3] "id" = [0; 1; 2].
Proof.
  destruct (remove_duplicate_dicts_spec ids_with_gaps "id")
    as (_ & _ & Hmissing & Hfirst & Hlater).
  split; [|split; [|reflexivity]].
  - apply Hfirst.
    + by apply Hmissing.
    + intros e He. apply list_elem_of_singleton in He. by subst e.
  - apply Hlater; [by apply Hmissing|reflexivity].
Defined.

(** ** [remove_duplicates_simple] and [group_by_property] *)

Lemma simple_loop_sublist seen data :
  sublist (remove_duplicates_simple_loop seen data) data.
Proof.
  revert seen. induction data as [|a rest IH]; intros seen; simpl; [done|].
  destruct (seen_mem a seen); [apply sublist_cons|apply sublist_skip]; apply IH.
Qed.

Lemma simple_loop_fresh seen data v :
  v ∈ remove_duplicates_simple_loop seen data → seen_mem v seen = false.
Proof.
  revert seen. induction data as [|a rest IH]; intros seen; simpl.
  { by intros ?%elem_of_nil. }
  destruct (seen_mem a seen) eqn:Ha; [by apply IH|].
  intros [->|Hv]%elem_of_cons; [done|].
  apply IH in Hv. rewrite seen_mem_cons in Hv. by apply orb_false_elim in Hv as [_ ?].
Qed.

Lemma simple_loop_distinct seen data :
  distinct_values (remove_duplicates_simple_loop seen data).
Proof.
  revert seen. induction data as [|a rest IH]; intros seen; simpl; [done|].
  destruct (seen_mem a seen) eqn:Ha; [by apply IH|].
  simpl. split; [|by apply IH].
  apply seen_mem_false. intros w Hw%simple_loop_fresh.
  rewrite seen_mem_cons in Hw. apply orb_false_elim in Hw as [Hw _].
  by rewrite py_eq_sym.
Qed.

(** The loop's result has the members of [data] that are not in [seen]. *)
Lemma simple_loop_mem seen data v :
  seen_mem v (remove_duplicates_simple_loop seen data) || seen_mem v seen
  = seen_mem v data || seen_mem v seen.
Proof.
  revert seen. induction data as [|a rest IH]; intros seen; [done|].
  cbn [remove_duplicates_simple_loop]. destruct (seen_mem a seen) eqn:Ha.
  - rewrite IH, seen_mem_cons.
    destruct (py_eq v a) eqn:E; [|done].
    rewrite (seen_mem_congr _ _ seen E), Ha. by rewrite !orb_true_r.
  - rewrite !seen_mem_cons. specialize (IH (a :: seen)).
    rewrite !seen_mem_cons in IH.
    destruct (py_eq v a); [done|]. simpl in *. done.
Qed.

Lemma simple_loop_id seen data :
  distinct_values data →
  (∀ v, v ∈ data → seen_mem v seen = false) →
  remove_duplicates_simple_loop seen data = data.
Proof.
  revert seen. induction data as [|a rest IH]; intros seen; simpl; [done|].
  intros [Ha Hd] Hseen. rewrite (Hseen a) by apply list_elem_of_here.
  f_equal. apply IH; [done|]. intros v Hv. rewrite seen_mem_cons.
  rewrite (Hseen v) by by apply list_elem_of_further.
  rewrite orb_false_r, py_eq_sym.
  rewrite seen_mem_false in Ha. by apply Ha.
Qed.

Lemma simple_loop_snoc seen data v :
  remove_duplicates_simple_loop seen (data ++ [v])
  = remove_duplicates_simple_loop seen data
    ++ (if seen_mem v (data ++ seen) then [] else [v]).
Proof.
  revert seen. induction data as [|a rest IH]; intros seen.
  { simpl. by destruct (seen_mem v seen). }
  cbn [app remove_duplicates_simple_loop].
  destruct (seen_mem a seen) eqn:Ha.
  - rewrite IH. do 2 f_equal. rewrite seen_mem_cons, !seen_mem_app.
    destruct (py_eq v a) eqn:E; [|done].
    rewrite (seen_mem_congr _ _ seen E), Ha. simpl. by rewrite orb_true_r.
  - rewrite IH. cbn [app]. do 2 f_equal.
    rewrite !seen_mem_cons, !seen_mem_app, seen_mem_cons.
    by destruct (py_eq v a), (seen_mem v rest), (seen_mem v seen).
Qed.

(** [remove_duplicates_simple] returns a subsequence of its input in which no
    value is repeated and every value of the input is still present; on its
    own output, or on any list without repetition, it changes nothing. *)
Theorem remove_duplicates_simple_spec (data : list value) :
  sublist (remove_duplicates_simple data) data
  ∧ distinct_values (remove_duplicates_simple data)
  ∧ (∀ v, seen_mem v (remove_duplicates_simple data) = seen_mem v data)
  ∧ remove_duplicates_simple (remove_duplicates_simple data)
    = remove_duplicates_simple data
  ∧ (distinct_values data → remove_duplicates_simple data = data).
Proof.
  unfold remove_duplicates_simple. repeat split.
  - apply simple_loop_sublist.
  - apply simple_loop_distinct.
  - intros v. pose proof (simple_loop_mem [] data v) as H.
    by rewrite !orb_false_r in H.
  - apply simple_loop_id; [apply simple_loop_distinct|done].
  - intros Hd. by apply simple_loop_id.
Qed.

(** The key values of the records [remove_duplicate_dicts] keeps are the key
    values of its input with [remove_duplicates_simple] applied. *)
Theorem remove_duplicate_dicts_keys (h : store) (records : list loc) (key : string) :
  key_of h key <$> remove_duplicate_dicts h records key
  = remove_duplicates_simple (key_of h key <$> records).
Proof.
  unfold remove_duplicate_dicts, remove_duplicates_simple.
  generalize (@nil value) as seen.
  induction records as [|r rest IH]; intros seen; [done|].
  cbn [remove_duplicate_dicts_loop]. rewrite fmap_cons.
  cbn [remove_duplicates_simple_loop]. fold (key_of h key r).
  destruct (seen_mem (key_of h key r) seen); [apply IH|].
  rewrite fmap_cons. f_equal. apply IH.
Qed.

Lemma fmap_ext_elem {A B} (f g : A → B) (l : list A) :
  (∀ x, x ∈ l → f x = g x) → f <$> l = g <$> l.
Proof.
  intros H. apply list_fmap_ext. intros i x Hx. apply H.
  by eapply list_elem_of_lookup_2.
Qed.

Lemma with_key_snoc h key k items x :
  with_key h key k (items ++ [x])
  = with_key h key k items ++ (if py_eq (key_of h key x) k then [x] else []).
Proof.
  unfold with_key. rewrite filter_app. f_equal.
  rewrite filter_cons, filter_nil. destruct (py_eq _ k); by case_decide.
Qed.

Lemma with_key_cons_ne h key k a items :
  py_eq (key_of h key a) k = false →
  with_key h key k (a :: items) = with_key h key k items.
Proof.
  intros E. unfold with_key. rewrite filter_cons_False; [done|]. by apply Is_true_false.
Qed.

Lemma with_key_unseen h key k items :
  seen_mem k (key_of h key <$> items) = false → with_key h key k items = [].
Proof.
  intros Hk. rewrite seen_mem_false in Hk.
  induction items as [|a rest IH]; [done|].
  rewrite with_key_cons_ne.
  - apply IH. intros w Hw. apply Hk. rewrite fmap_cons. by apply list_elem_of_further.
  - rewrite py_eq_sym. apply Hk. rewrite fmap_cons. apply list_elem_of_here.
Qed.

(** One step of the grouping loop, on a dictionary whose keys are distinct:
    the item joins the group of its key, or opens a new group at the end. *)
Lemma group_append_distinct (f : value → list loc) ks kx x :
  distinct_values ks →
  group_append ((λ k, (k, f k)) <$> ks) kx x
  = ((λ k, (k, f k ++ if py_eq kx k then [x] else [])) <$> ks)
    ++ (if seen_mem kx ks then [] else [(kx, [x])]).
Proof.
  induction ks as [|k ks IH]; [done|]. intros [Hk Hd].
  rewrite !fmap_cons, seen_mem_cons. cbn [group_append].
  destruct (py_eq kx k) eqn:E.
  - cbn [orb app]. rewrite app_nil_r. f_equal.
    apply fmap_ext_elem. intros k' Hk'.
    replace (py_eq kx k') with false; [by rewrite app_nil_r|].
    symmetry. rewrite seen_mem_false in Hk.
    rewrite (py_eq_congr_l kx k k' E). by apply Hk.
  - rewrite IH by done. cbn [orb app]. by rewrite app_nil_r.
Qed.

(** The dictionary [group_by_property] builds: one entry for each distinct
    key value, in the order of first occurrence, holding the records with
    that key value in their order. *)
Lemma group_by_property_groups h items key :
  group_by_property h items key
  = (λ k, (k, with_key h key k items))
    <$> remove_duplicates_simple (key_of h key <$> items).
Proof.
  unfold group_by_property, remove_duplicates_simple.
  induction items as [|x items IH] using rev_ind; [done|].
  rewrite foldl_snoc, IH. fold (key_of h key x).
  rewrite group_append_distinct by apply simple_loop_distinct.
  rewrite (fmap_app (key_of h key) items [x]). cbn [fmap list_fmap].
  rewrite simple_loop_snoc, app_nil_r, fmap_app.
  pose proof (simple_loop_mem [] (key_of h key <$> items) (key_of h key x)) as Hmem.
  rewrite !orb_false_r in Hmem. rewrite Hmem. f_equal.
  - apply fmap_ext_elem. intros k _. by rewrite with_key_snoc.
  - destruct (seen_mem (key_of h key x) (key_of h key <$> items)) eqn:Hseen;
      [done|]. cbn [fmap list_fmap].
    rewrite with_key_snoc, py_eq_refl, with_key_unseen by done. done.
Qed.

Lemma group_heads h key seen records :
  (λ k, head (with_key h key k records))
    <$> remove_duplicates_simple_loop seen (key_of h key <$> records)
  = Some <$> remove_duplicate_dicts_loop h key seen records.
Proof.
  revert seen. induction records as [|a rest IH]; intros seen; [done|].
  rewrite fmap_cons. cbn [remove_duplicates_simple_loop remove_duplicate_dicts_loop].
  fold (key_of h key a).
  assert (∀ seen', seen_mem (key_of h key a) seen' = true →
    (λ k, head (with_key h key k (a :: rest)))
      <$> remove_duplicates_simple_loop seen' (key_of h key <$> rest)
    = Some <$> remove_duplicate_dicts_loop h key seen' rest) as Hrest.
  { intros seen' Ha. rewrite <- IH. apply fmap_ext_elem.
    intros k Hk%simple_loop_fresh. rewrite with_key_cons_ne; [done|].
    destruct (py_eq (key_of h key a) k) eqn:E; [|done].
    by rewrite (seen_mem_congr _ _ seen' E), Hk in Ha. }
  destruct (seen_mem (key_of h key a) seen) eqn:Ha; [by apply Hrest|].
  rewrite !fmap_cons. f_equal.
  - unfold with_key. by rewrite filter_cons_True by by rewrite py_eq_refl.
  - apply Hrest. by rewrite seen_mem_cons, py_eq_refl.
Qed.

Lemma group_append_Permutation grouped k x :
  concat (group_append grouped k x).*2 ≡ₚ concat grouped.*2 ++ [x].
Proof.
  induction grouped as [|[k' g] rest IH]; [done|].
  cbn [group_append]. destruct (py_eq k k').
  - rewrite !fmap_cons. cbn [snd concat]. rewrite <- !app_assoc.
    f_equiv. apply Permutation_app_comm.
  - rewrite !fmap_cons. cbn [snd concat]. by rewrite IH, app_assoc.
Qed.

(** [group_by_property] splits the records by the value of [record.get(key)].
    Its keys are the distinct key values in the order they first occur; each
    group holds exactly the records with that value, in their order, and is
    not empty; the first records of the groups are the records
    [remove_duplicate_dicts] keeps; and no record is lost or added. *)
Theorem group_by_property_spec (h : store) (items : list loc) (key : string) :
  let grouped := group_by_property h items key in
  grouped.*1 = remove_duplicates_simple (key_of h key <$> items)
  ∧ Forall (λ kg, kg.2 = with_key h key kg.1 items ∧ kg.2 ≠ []) grouped
  ∧ (λ kg, head kg.2) <$> grouped = Some <$> remove_duplicate_dicts h items key
  ∧ concat grouped.*2 ≡ₚ items.
Proof.
  cbv zeta. split; [|split; [|split]].
  - rewrite group_by_property_groups, <- list_fmap_compose.
    apply list_fmap_id.
  - rewrite group_by_property_groups. apply Forall_fmap, Forall_forall.
    intros k Hk. cbn [fst snd compose]. split; [done|].
    eapply elem_of_sublist in Hk; [|apply simple_loop_sublist].
    apply list_elem_of_fmap in Hk as (r & -> & Hr).
    assert (r ∈ with_key h key (key_of h key r) items) as Hin.
    { apply list_elem_of_filter. split; [by rewrite py_eq_refl|done]. }
    intros Hnil. rewrite Hnil in Hin. by apply elem_of_nil in Hin.
  - rewrite group_by_property_groups, <- list_fmap_compose.
    apply (group_heads h key []).
  - unfold group_by_property.
    induction items as [|x items IH] using rev_ind; [done|].
    by rewrite foldl_snoc, group_append_Permutation, IH.
Qed.

(** ** Ranges *)

(** [filter_by_range] returns, in order, exactly the numbers of its input
    that lie between the bounds, both included: the numbers
    [validate_numeric_range] accepts.  It returns nothing when the bounds are
    crossed, and filtering by two ranges in turn is filtering by their
    intersection. *)
Theorem filter_by_range_spec (data : list R) (min_val max_val : R) :
  sublist (filter_by_range data min_val max_val) data
  ∧ (∀ x, x ∈ filter_by_range data min_val max_val
          ↔ x ∈ data ∧ (min_val <= x <= max_val)%R)
  ∧ filter_by_range data min_val max_val
    = filter (λ x, validate_numeric_range x min_val max_val) data
  ∧ ((max_val < min_val)%R → filter_by_range data min_val max_val = [])
  ∧ (∀ lo hi,
       filter_by_range (filter_by_range data min_val max_val) lo hi
       = filter_by_range data (Rmax min_val lo) (Rmin max_val hi)).
Proof.
  unfold filter_by_range. split; [|split; [|split; [|split]]].
  - apply sublist_filter.
  - intros x. rewrite list_elem_of_filter. tauto.
  - apply list_filter_iff. intros x. unfold validate_numeric_range.
    by rewrite bool_decide_spec.
  - intros Hcross. induction data as [|x data IH]; [done|].
    rewrite filter_cons_False; [done|]. lra.
  - intros lo hi. rewrite list_filter_filter. apply list_filter_iff.
    intros x. unfold Rmax, Rmin.
    destruct (Rle_dec min_val lo), (Rle_dec max_val hi); lra.
Qed.

(** ** [filter_outliers] fails only by overflow *)

Lemma sublist_List_filter {A} (f : A → bool) (l : list A) :
  sublist (List.filter f l) l.
Proof.
  induction l as [|x l IH]; simpl; [done|].
  destruct (f x); by constructor.
Qed.

(** The run of [run_examples] with the other method. *)
Example filter_outliers_std_demo :
  filter_outliers data_with_outliers "std"
  = Some [10; 12; 13; 12; 11; 13; 12; 11; 14; 1]%float
  ∧ filter_outliers [1e200; -1e200]%float "std" = None.
Proof. split; by vm_compute. Qed.

(** On a non-empty list without not-a-number, what [filter_outliers] returns
    is a subsequence of its input, whatever the method.  It raises nothing
    with the method ['iqr'] or an unknown one; with ['std'] it raises
    [OverflowError] exactly when the square of a distance to the mean is too
    large for a float. *)
Theorem filter_outliers_sublist (data : list double) (method : string) :
  data ≠ [] → no_nan data →
  let mean := (sum data / float_of_int (len data))%float in
  (filter_outliers data method = None
   ↔ method = "std" ∧ ∃ x, x ∈ data ∧ float_pow_2 (x - mean) = None)
  ∧ ∀ out, filter_outliers data method = Some out → sublist out data.
Proof.
  intros Hne _ mean.
  destruct (decide (method = "iqr")) as [->|Hiqr].
  { destruct (filter_outliers_iqr_unfold data Hne) as (q1 & q3 & _ & _ & ->).
    split; [split; [done|by intros [[=] _]]|].
    intros out [= <-]. apply sublist_List_filter. }
  destruct (decide (method = "std")) as [->|Hstd].
  - assert (filter_outliers data "std" =
      (squares ← mapM (λ x, float_pow_2 (x - mean)) data;
       std_dev ← float_pow_half (sum squares / float_of_int (len data));
       Some (List.filter
               (λ x, (PrimFloat.abs (x - mean) <=? float_of_int 3 * std_dev)%float)
               data))) as ->.
    { by destruct data. }
    rewrite <- mapM_None.
    destruct (mapM _ data) as [squares|] eqn:Hsq; cbn [mbind option_bind].
    + destruct (std_dev_is_Some _ _ _ (len data) Hsq) as [sd ->].
      cbn [mbind option_bind]. split; [split; [done|by intros [_ [=]]]|].
      intros out [= <-]. apply sublist_List_filter.
    + split; [done|]. by intros out [=].
  - assert (filter_outliers data method = Some data) as ->.
    { unfold filter_outliers. destruct data; [done|].
      by rewrite !bool_decide_eq_false_2. }
    split; [split; [done|by intros [? _]]|]. by intros out [= <-].
Qed.

Lemma filter_outliers_sublist_witness :
  let mean := (sum data_with_outliers
               / float_of_int (len data_with_outliers))%float in
  (filter_outliers data_with_outliers "std" = None
   ↔ "std" = "std" ∧ ∃ x, x ∈ data_with_outliers ∧ float_pow_2 (x - mean) = None)
  ∧ ∀ out, filter_outliers data_with_outliers "std" = Some out →
      sublist out data_with_outliers.
Proof.
  apply (filter_outliers_sublist data_with_outliers "std"); [discriminate|].
  unfold no_nan, data_with_outliers. repeat constructor.
Defined.

(** ** More about [fill_missing_values] *)

Lemma fill_with_full fill_value data :
  Forall is_Some data → fill_with fill_value data = data.
Proof.
  unfold fill_with. induction 1 as [|x data [v ->] _ IH]; [done|].
  by rewrite fmap_cons, IH.
Qed.

Lemma fill_with_is_Some fill_value data : Forall is_Some (fill_with fill_value data).
Proof.
  unfold fill_with. apply Forall_fmap, Forall_forall. intros [v|] _; simpl; eauto.
Qed.

Lemma remove_null_values_fill_with (fill_value : double) (data : list (option double)) :
  remove_null_values (fill_with fill_value data) = default fill_value <$> data.
Proof.
  unfold remove_null_values, fill_with.
  induction data as [|[v|] data IH]; simpl; [done|f_equal; apply IH..].
Qed.

Lemma remove_null_values_sublist (fill_value : double) (data : list (option double)) :
  sublist (remove_null_values data) (default fill_value <$> data).
Proof.
  unfold remove_null_values. induction data as [|[v|] data IH]; simpl.
  - done.
  - by apply sublist_skip.
  - by apply sublist_cons.
Qed.

(** [fill_missing_values] keeps the length of the list and the numbers that
    are there, in their places.  It leaves no [None] in the result, except
    when no fill value is given and every entry is [None]; and filling a
    second time changes nothing. *)
Theorem fill_missing_values_complete (data : list (option double))
    (fill_value : option double) :
  let out := fill_missing_values data fill_value in
  length out = length data
  ∧ (∀ i v, data !! i = Some (Some v) → out !! i = Some (Some v))
  ∧ sublist (remove_null_values data) (remove_null_values out)
  ∧ (Forall is_Some out ∨ fill_value = None ∧ Forall (λ x, x = None) data ∧ out = data)
  ∧ fill_missing_values out fill_value = out.
Proof.
  cbv zeta.
  assert (∀ v, let out := fill_with v data in
    length out = length data
    ∧ (∀ i w, data !! i = Some (Some w) → out !! i = Some (Some w))
    ∧ sublist (remove_null_values data) (remove_null_values out)
    ∧ Forall is_Some out) as Hfill.
  { intros v. cbv zeta. split; [apply length_fmap|]. split.
    - intros i w Hi. by rewrite lookup_fill_with, Hi.
    - rewrite remove_null_values_fill_with.
      split; [apply remove_null_values_sublist|apply fill_with_is_Some]. }
  destruct fill_value as [v|].
  - destruct (Hfill v) as (H1 & H2 & H3 & H4). cbn [fill_missing_values].
    repeat split; try done; [by left|]. by apply fill_with_full.
  - rewrite fill_missing_values_default. case_decide as Hp.
    + repeat split; try done.
      * right. by rewrite <- present_nil.
      * rewrite fill_missing_values_default. by rewrite decide_True.
    + destruct (Hfill (mean_of_present data)) as (H1 & H2 & H3 & H4).
      repeat split; try done; [by left|].
      rewrite fill_missing_values_default. case_decide; [done|].
      by apply fill_with_full.
Qed.

(** ** [pivot_data] *)

Lemma pivot_fold_None (l : list (string * value)) :
  foldl (λ acc kv, result ← acc; pivot_append result kv.1 kv.2) None l = None.
Proof. by induction l. Qed.

Lemma pivot_items l (result : gmap string (list value)) :
  ((∀ kv, kv ∈ l → is_Some (result !! kv.1)) →
   ∃ out, foldl (λ acc kv, result ← acc; pivot_append result kv.1 kv.2)
            (Some result) l = Some out
     ∧ ∀ k, out !! k = (λ col, col ++ items_at k l) <$> result !! k)
  ∧ ((∃ kv, kv ∈ l ∧ result !! kv.1 = None) →
     foldl (λ acc kv, result ← acc; pivot_append result kv.1 kv.2)
       (Some result) l = None).
Proof.
  revert result. induction l as [|[k0 v0] l IH]; intros result.
  { split.
    - intros _. exists result. split; [done|]. intros k.
      destruct (result !! k); simpl; by rewrite ?app_nil_r.
    - by intros (kv & ?%elem_of_nil & _). }
  cbn [foldl mbind option_bind fst snd]. unfold pivot_append at 2 4.
  destruct (result !! k0) as [col0|] eqn:E0; cbn [mbind option_bind].
  - destruct (IH (<[k0 := col0 ++ [v0]]> result)) as [IHok IHbad]. split.
    + intros Hall. destruct IHok as (out & -> & Hout).
      { intros kv Hkv. destruct (decide (k0 = kv.1)) as [->|Hne].
        - rewrite lookup_insert_eq. eauto.
        - rewrite lookup_insert_ne by done. apply Hall. by apply list_elem_of_further. }
      exists out. split; [done|]. intros k. rewrite Hout.
      unfold items_at. cbn [omap list_omap fst snd].
      destruct (decide (k0 = k)) as [->|Hne].
      * rewrite lookup_insert_eq, E0. simpl. by rewrite <- app_assoc.
      * by rewrite lookup_insert_ne.
    + intros (kv & [->|Hkv]%elem_of_cons & Hnone); [simpl in Hnone; congruence|].
      apply IHbad. exists kv. split; [done|].
      rewrite lookup_insert_ne; [done|]. intros Heq. rewrite <- Heq in Hnone. congruence.
  - split.
    + intros Hall. destruct (Hall (k0, v0)) as [? Hsome]; [apply list_elem_of_here|].
      simpl in Hsome. congruence.
    + intros _. apply pivot_fold_None.
Qed.

Lemma items_at_map_to_list k (r : record) :
  items_at k (map_to_list r) = match r !! k with Some v => [v] | None => [] end.
Proof.
  assert (∀ l : list (string * value), NoDup l.*1 →
    (∀ v, (k, v) ∈ l → items_at k l = [v]) ∧ (k ∉ l.*1 → items_at k l = [])) as Hl.
  { induction l as [|[k0 v0] l IH]; intros Hnd.
    { split; [by intros ? ?%elem_of_nil|done]. }
    rewrite fmap_cons in Hnd. apply NoDup_cons in Hnd as [Hk0 Hnd].
    destruct (IH Hnd) as [IH1 IH2]. unfold items_at in *.
    cbn [omap list_omap fst snd]. split.
    - intros v [[= <- <-]|Hv]%elem_of_cons.
      + rewrite decide_True by done. simpl. by rewrite IH2.
      + rewrite decide_False; [by apply IH1|].
        intros ->. apply Hk0, list_elem_of_fmap. by exists (k, v).
    - intros Hk. rewrite fmap_cons in Hk. rewrite decide_False.
      + apply IH2. intros ?. apply Hk. by apply list_elem_of_further.
      + intros ->. apply Hk, list_elem_of_here. }
  destruct (Hl (map_to_list r) (NoDup_fst_map_to_list r)) as [H1 H2].
  destruct (r !! k) as [v|] eqn:E.
  - apply H1. by apply elem_of_map_to_list.
  - apply H2. intros ([k' v] & Hk & Hin)%list_elem_of_fmap.
    simpl in Hk. subst k'. apply elem_of_map_to_list in Hin. congruence.
Qed.

(** One record: every column of a key it has grows by its value, and a key
    the columns do not have is an error. *)
Lemma pivot_record_spec (result : gmap string (list value)) (r : record) :
  (dom r ⊆ dom result →
   ∃ out, pivot_record result r = Some out
     ∧ ∀ k, out !! k = (λ col, col ++ column k [r]) <$> result !! k)
  ∧ (¬ dom r ⊆ dom result → pivot_record result r = None).
Proof.
  unfold pivot_record. destruct (pivot_items (map_to_list r) result) as [Hok Hbad].
  split.
  - intros Hdom. destruct Hok as (out & -> & Hout).
    { intros [k v] Hkv%elem_of_map_to_list. apply elem_of_dom, Hdom, elem_of_dom.
      simpl. eauto. }
    exists out. split; [done|]. intros k. rewrite Hout, items_at_map_to_list.
    unfold column. simpl. by destruct (r !! k).
  - intros Hdom. apply Hbad.
    destruct (decide (Forall (λ kv, is_Some (result !! kv.1)) (map_to_list r)))
      as [Hall|Hex].
    + exfalso. apply Hdom. intros k [v Hk]%elem_of_dom.
      rewrite Forall_forall in Hall. apply elem_of_dom.
      apply (Hall (k, v)). by apply elem_of_map_to_list.
    + apply not_Forall_Exists in Hex; [|apply _].
      apply Exists_exists in Hex as (kv & Hkv & Hnone).
      exists kv. split; [done|]. by apply eq_None_not_Some.
Qed.

Lemma pivot_records_None (records : list record) :
  foldl (λ acc r, result ← acc; pivot_record result r) None records = None.
Proof. by induction records. Qed.

Lemma pivot_records_spec (records : list record) (result : gmap string (list value)) :
  (Forall (λ r, dom r ⊆ dom result) records →
   ∃ out, foldl (λ acc r, result ← acc; pivot_record result r) (Some result) records
          = Some out
     ∧ ∀ k, out !! k = (λ col, col ++ column k records) <$> result !! k)
  ∧ (¬ Forall (λ r, dom r ⊆ dom result) records →
     foldl (λ acc r, result ← acc; pivot_record result r) (Some result) records
     = None).
Proof.
  revert result. induction records as [|r records IH]; intros result.
  { split; [|by intros []]. intros _. exists result. split; [done|].
    intros k. destruct (result !! k); simpl; by rewrite ?app_nil_r. }
  cbn [foldl mbind option_bind].
  destruct (pivot_record_spec result r) as [Hok Hbad].
  destruct (decide (dom r ⊆ dom result)) as [Hdom|Hdom].
  - destruct (Hok Hdom) as (out1 & -> & Hout1).
    assert (dom out1 = dom result) as Edom.
    { apply set_eq. intros k. rewrite !elem_of_dom, Hout1.
      destruct (result !! k); simpl; split; intros [? ?]; eauto; done. }
    destruct (IH out1) as [IHok IHbad]. rewrite Edom in IHok, IHbad. split.
    + intros [_ Hall]%Forall_cons_1. destruct (IHok Hall) as (out & -> & Hout).
      exists out. split; [done|]. intros k. rewrite Hout, Hout1.
      destruct (result !! k); simpl; [|done].
      unfold column. cbn [omap list_omap]. rewrite <- app_assoc.
      by destruct (r !! k).
    + intros Hnot. apply IHbad. intros Hall. apply Hnot. by constructor.
  - rewrite (Hbad Hdom). split.
    + by intros [? _]%Forall_cons_1.
    + intros _. apply pivot_records_None.
Qed.

(** [pivot_data] returns the empty dictionary for no records.  Otherwise its
    columns are the keys of the first record: it fails with a [KeyError]
    exactly when a later record has a key the first one lacks, and when it
    succeeds the column of each key lists the values the records hold under
    that key, in the order of the records. *)
Theorem pivot_data_spec (records : list record) :
  pivot_data [] = Some ∅
  ∧ (∀ first rest,
       records = first :: rest →
       (pivot_data records = None ↔ ∃ r, r ∈ rest ∧ ¬ dom r ⊆ dom first)
       ∧ ∀ columns, pivot_data records = Some columns →
           dom columns = dom first
           ∧ ∀ k, k ∈ dom first → columns !! k = Some (column k records)).
Proof.
  split; [done|]. intros first rest ->. cbn [pivot_data]. cbv zeta.
  set (result := (λ _, []) <$> first : gmap string (list value)).
  assert (dom result = dom first) as Edom by apply dom_fmap_L.
  destruct (pivot_records_spec (first :: rest) result) as [Hok Hbad].
  rewrite Edom in Hok, Hbad.
  destruct (decide (Forall (λ r, dom r ⊆ dom first) (first :: rest))) as [Hall|Hnot].
  - destruct (Hok Hall) as (out & Eout & Hout). rewrite Eout. split.
    + split; [done|]. intros (r & Hr & Hdom). exfalso. apply Hdom.
      rewrite Forall_forall in Hall. apply Hall. by apply list_elem_of_further.
    + intros columns [= <-].
      assert (∀ k, out !! k = if decide (k ∈ dom first)
                then Some (column k (first :: rest)) else None) as Hcol.
      { intros k. rewrite Hout. unfold result. rewrite lookup_fmap.
        case_decide as Hk.
        - apply elem_of_dom in Hk as [v ->]. done.
        - apply not_elem_of_dom in Hk. by rewrite Hk. }
      split.
      * apply set_eq. intros k. rewrite elem_of_dom, Hcol.
        case_decide; [by split; eauto|]. split; [by intros [? ?]|done].
      * intros k Hk. by rewrite Hcol, decide_True.
  - rewrite (Hbad Hnot). split; [|done]. split; [|done]. intros _.
    apply not_Forall_Exists in Hnot; [|apply _].
    apply Exists_exists in Hnot as (r & [->|Hr]%elem_of_cons & Hdom).
    + exfalso. by apply Hdom.
    + by exists r.
Qed.

Lemma pivot_data_spec_witness :
  pivot_data [ {[ "a" := VInt 1 ]}; {[ "a" := VInt 2; "b" := VInt 3 ]} ] = None.
Proof.
  destruct (pivot_data_spec [ {[ "a" := VInt 1 ]}; {[ "a" := VInt 2; "b" := VInt 3 ]} ])
    as [_ Hrecords].
  destruct (Hrecords _ _ eq_refl) as [Hfail _]. apply Hfail.
  eexists. split; [apply list_elem_of_here|]. intros Hsub.
  assert ("b" ∈ dom ({[ "a" := VInt 1 ]} : record)) as Hb.
  { apply Hsub, elem_of_dom. exists (VInt 3). reflexivity. }
  apply elem_of_dom in Hb as [v Hv]. discriminate Hv.
Defined.

Lemma column_lookup k (records : list record) (i : nat) r :
  Forall (λ r : record, is_Some (r !! k)) records →
  records !! i = Some r → column k records !! i = r !! k.
Proof.
  unfold column. intros Hall. revert i.
  induction Hall as [|r0 records [v Hv] _ IH]; intros i Hi.
  { by rewrite lookup_nil in Hi. }
  cbn [omap list_omap]. rewrite Hv. cbn [mbind option_bind from_option].
  destruct i as [|i]; simpl in *; [by simplify_eq|]. by apply IH.
Qed.

(** When every record has the keys of the first one and no other, [pivot_data]
    succeeds and is a transposition: every column is as long as the dataset,
    and entry [i] of the column of [k] is the value of [k] in record [i]. *)
Theorem pivot_data_table (first : record) (rest : list record) :
  Forall (λ r, dom r = dom first) rest →
  ∃ columns, pivot_data (first :: rest) = Some columns
    ∧ dom columns = dom first
    ∧ ∀ k, k ∈ dom first →
        ∃ col, columns !! k = Some col
          ∧ length col = length (first :: rest)
          ∧ ∀ i r, (first :: rest) !! i = Some r → col !! i = r !! k.
Proof.
  intros Hsame. cbn [pivot_data]. cbv zeta.
  set (result := (λ _, []) <$> first : gmap string (list value)).
  assert (dom result = dom first) as Edom by apply dom_fmap_L.
  assert (Forall (λ r, dom r = dom first) (first :: rest)) as Hall by by constructor.
  destruct (pivot_records_spec (first :: rest) result) as [Hok _].
  destruct Hok as (out & -> & Hout).
  { rewrite Edom. eapply Forall_impl; [done|]. by intros r ->. }
  exists out. split; [done|].
  assert (∀ k, k ∈ dom first → out !! k = Some (column k (first :: rest))) as Hcol.
  { intros k Hk. rewrite Hout. unfold result. rewrite lookup_fmap.
    apply elem_of_dom in Hk as [v ->]. done. }
  split.
  - apply set_eq. intros k. rewrite elem_of_dom. split.
    + intros [col Hk]. rewrite Hout in Hk. rewrite <- Edom. apply elem_of_dom.
      destruct (result !! k); [eauto|done].
    + intros Hk. rewrite Hcol by done. eauto.
  - intros k Hk. exists (column k (first :: rest)). split; [by apply Hcol|].
    assert (Forall (λ r : record, is_Some (r !! k)) (first :: rest)) as Hhas.
    { eapply Forall_impl; [done|]. intros r Hr. apply elem_of_dom. by rewrite Hr. }
    split; [|intros i r Hi; by apply column_lookup].
    clear -Hhas. unfold column.
    induction Hhas as [|r recs [v Hv] _ IH]; [done|].
    cbn [omap list_omap]. rewrite Hv. simpl. by rewrite IH.
Qed.

Lemma pivot_data_table_witness :
  ∃ columns,
    pivot_data [ {[ "a" := VInt 1; "b" := VInt 2 ]}; {[ "a" := VInt 3; "b" := VInt 4 ]} ]
    = Some columns
    ∧ dom columns = dom ({[ "a" := VInt 1; "b" := VInt 2 ]} : record)
    ∧ ∀ k, k ∈ dom ({[ "a" := VInt 1; "b" := VInt 2 ]} : record) →
        ∃ col, columns !! k = Some col
          ∧ length col = 2%nat
          ∧ ∀ i r, [ ({[ "a" := VInt 1; "b" := VInt 2 ]} : record);
                     {[ "a" := VInt 3; "b" := VInt 4 ]} ] !! i = Some r →
                   col !! i = r !! k.
Proof.
  apply (pivot_data_table {[ "a" := VInt 1; "b" := VInt 2 ]}
           [ {[ "a" := VInt 3; "b" := VInt 4 ]} ]).
  apply Forall_singleton. by vm_compute.
Defined.

(** ** [sliding_window] *)

Lemma py_range_lookup (n : Z) (i : nat) :
  py_range n !! i = if decide (Z.of_nat i < n)%Z then Some (Z.of_nat i) else None.
Proof.
  unfold py_range. rewrite list_lookup_fmap. case_decide as Hi.
  - rewrite lookup_seq_lt by lia. done.
  - rewrite lookup_seq_ge by lia. done.
Qed.

Lemma py_slice_window {A} (l : list A) (i : nat) (w : Z) :
  (0 ≤ w)%Z → (Z.of_nat i + w ≤ len l)%Z →
  py_slice l (Z.of_nat i) (Z.of_nat i + w) = take (Z.to_nat w) (drop i l).
Proof.
  intros Hw Hi. unfold py_slice, slice_bound. cbv zeta.
  destruct (Z.ltb_spec (Z.of_nat i) 0); [lia|].
  destruct (Z.ltb_spec (Z.of_nat i + w) 0); [lia|].
  rewrite !Z.min_l by lia. f_equal; [lia|]. f_equal. lia.
Qed.

(** [sliding_window] with a window of [w] items, [0 < w <= len(data)], returns
    the [len(data) - w + 1] runs of [w] consecutive items, in order.  A window
    longer than the data gives no window at all, and a window of size 0 gives
    [len(data) + 1] empty windows. *)
Theorem sliding_window_spec {A} (data : list A) (window_size : Z) :
  ((0 < window_size ≤ len data)%Z →
   len (sliding_window data window_size) = (len data - window_size + 1)%Z
   ∧ Forall (λ window, len window = window_size) (sliding_window data window_size)
   ∧ ∀ i : nat, (Z.of_nat i ≤ len data - window_size)%Z →
       sliding_window data window_size !! i
       = Some (take (Z.to_nat window_size) (drop i data)))
  ∧ ((len data < window_size)%Z → sliding_window data window_size = [])
  ∧ (window_size = 0%Z →
     sliding_window data window_size = replicate (S (length data)) []).
Proof.
  assert (∀ i : nat, (0 ≤ window_size)%Z → (Z.of_nat i ≤ len data - window_size)%Z →
       sliding_window data window_size !! i
       = Some (take (Z.to_nat window_size) (drop i data))) as Hlookup.
  { intros i Hw Hi. unfold sliding_window.
    rewrite list_lookup_fmap, py_range_lookup, decide_True by lia.
    simpl. f_equal. apply py_slice_window; lia. }
  assert (length (sliding_window data window_size)
          = Z.to_nat (len data - window_size + 1)) as Hlen.
  { unfold sliding_window, py_range. by rewrite !length_fmap, length_seq. }
  split; [|split].
  - intros [Hw1 Hw2]. split; [unfold len in *; lia|]. split; [|intros; apply Hlookup; lia].
    apply Forall_forall. intros window Hwin.
    apply list_elem_of_lookup in Hwin as [i Hi].
    assert (i < length (sliding_window data window_size))%nat as Hlt
      by by eapply lookup_lt_Some.
    rewrite Hlookup in Hi by (unfold len in *; lia). simplify_eq.
    unfold len in *. rewrite length_take, length_drop. lia.
  - intros Hw. apply nil_length_inv. rewrite Hlen. lia.
  - intros ->. apply list_eq. intros i.
    destruct (decide (i < S (length data))%nat) as [Hi|Hi].
    + rewrite Hlookup by (unfold len; lia).
      by rewrite lookup_replicate_2.
    + rewrite !lookup_ge_None_2; [done|rewrite length_replicate; lia|].
      rewrite Hlen. unfold len. lia.
Qed.

Lemma sliding_window_spec_witness :
  sliding_window [1; 2; 3; 4; 5]%Z 3
  = [[1; 2; 3]; [2; 3; 4]; [3; 4; 5]]%Z
  ∧ len (sliding_window [1; 2; 3; 4; 5]%Z 3) = (len [1; 2; 3; 4; 5]%Z - 3 + 1)%Z.
Proof.
  split; [reflexivity|].
  destruct (sliding_window_spec [1; 2; 3; 4; 5]%Z 3) as [Hwin _].
  apply Hwin. by vm_compute.
Defined.

(** ** Phone numbers, again *)

Lemma filter_all_true {A} (f : A → bool) (l : list A) :
  Forall (λ x, f x = true) l → List.filter f l = l.
Proof.
  induction 1 as [|x l Hx _ IH]; [done|]. simpl. by rewrite Hx, IH.
Qed.

Lemma Forall_filter_true {A} (f : A → bool) (l : list A) :
  Forall (λ x, f x = true) (List.filter f l).
Proof.
  apply Forall_forall. intros x Hx%list_elem_of_In%filter_In. tauto.
Qed.

(** [standardize_phone_numbers] never changes the digits of a number: the
    digits of its result are the digits of its input, in order.  So
    standardising a standardised number changes nothing. *)
Theorem standardize_phone_numbers_digits (decimal : char → bool) (phone : str) :
  List.filter (re_digit decimal) (standardize_phone_numbers decimal phone)
  = List.filter (re_digit decimal) phone
  ∧ standardize_phone_numbers decimal (standardize_phone_numbers decimal phone)
    = standardize_phone_numbers decimal phone.
Proof.
  assert (List.filter (re_digit decimal) (standardize_phone_numbers decimal phone)
          = List.filter (re_digit decimal) phone) as Hdigits.
  { unfold standardize_phone_numbers. cbv zeta.
    set (digits := List.filter (re_digit decimal) phone).
    assert (Forall (λ c, re_digit decimal c = true) digits) as Hall
      by apply Forall_filter_true.
    case_bool_decide; [|by apply filter_all_true].
    rewrite !List.filter_app.
    change (List.filter (re_digit decimal) (py "(")) with (@nil char).
    change (List.filter (re_digit decimal) (py ") ")) with (@nil char).
    change (List.filter (re_digit decimal) (py "-")) with (@nil char).
    rewrite !filter_all_true
      by (try apply Forall_take; try apply Forall_drop; try apply Forall_take; done).
    cbn [app].
    rewrite <- (take_drop 3 digits) at 4. f_equal.
    rewrite <- (take_drop 3 (drop 3 digits)) at 2. by rewrite drop_drop. }
  split; [done|].
  unfold standardize_phone_numbers at 1 3. cbv zeta. by rewrite Hdigits.
Qed.

(** ** Special characters *)

(** [remove_special_characters] returns a subsequence of the text made of
    ASCII letters and digits only, and of white space when [keep_spaces] is
    set.  Removing twice is removing once, and removing the spaces after
    keeping them is removing them at once. *)
Theorem remove_special_characters_spec (text : str) (keep_spaces : bool) :
  sublist (remove_special_characters text keep_spaces) text
  ∧ Forall (λ c, ascii_alnum c = true ∨ keep_spaces = true ∧ isspace c = true)
      (remove_special_characters text keep_spaces)
  ∧ remove_special_characters (remove_special_characters text keep_spaces) keep_spaces
    = remove_special_characters text keep_spaces
  ∧ remove_special_characters (remove_special_characters text true) false
    = remove_special_characters text false
  ∧ Forall (λ c, (c < 128)%N) (remove_special_characters text false).
Proof.
  assert (∀ (f : char → bool) (l : str), sublist (List.filter f l) l) as Hsub.
  { intros f l. induction l as [|c l IH]; simpl; [done|].
    destruct (f c); by constructor. }
  split; [destruct keep_spaces; apply Hsub|].
  split.
  { destruct keep_spaces; simpl; eapply Forall_impl;
      try apply Forall_filter_true; simpl; intros c Hc; [|by left].
    apply orb_true_iff in Hc as [?|?]; auto. }
  split.
  { destruct keep_spaces; simpl; apply filter_all_true, Forall_filter_true. }
  split.
  { simpl. induction text as [|c text IH]; simpl; [done|].
    destruct (ascii_alnum c) eqn:E; simpl; [by rewrite E, IH|].
    destruct (isspace c); simpl; by rewrite ?E, IH. }
  simpl. eapply Forall_impl; [apply Forall_filter_true|].
  intros c Hc. simpl in Hc. unfold ascii_alnum in Hc.
  repeat (apply orb_true_iff in Hc as [Hc|Hc]);
    apply andb_true_iff in Hc as [_ Hc%N.leb_le]; lia.
Qed.

(** ** Blank strings *)

Lemma lstrip_app text : ∃ blanks,
  text = blanks ++ lstrip text ∧ Forall (λ c, isspace c = true) blanks.
Proof.
  induction text as [|c text (blanks & IH & Hb)]; [by exists []|].
  simpl. destruct (isspace c) eqn:E.
  - exists (c :: blanks). split; [by rewrite IH at 1|by constructor].
  - by exists [].
Qed.

Lemma lstrip_nil text : lstrip text = [] ↔ Forall (λ c, isspace c = true) text.
Proof.
  induction text as [|c text IH]; simpl; [by split; [constructor|]|].
  destruct (isspace c) eqn:E.
  - rewrite IH. split; [by constructor|by intros [_ ?]%Forall_cons_1].
  - split; [done|]. intros [? _]%Forall_cons_1. congruence.
Qed.

Lemma strip_nil text : strip text = [] ↔ Forall (λ c, isspace c = true) text.
Proof.
  unfold strip, rstrip.
  destruct (lstrip_app text) as (blanks & Htext & Hblanks).
  assert (reverse (lstrip (reverse (lstrip text))) = []
          ↔ Forall (λ c, isspace c = true) (lstrip text)) as ->.
  { rewrite <- (reverse_involutive (lstrip text)) at 2.
    rewrite Forall_reverse, <- lstrip_nil. split; [|by intros ->].
    intros H. apply (f_equal reverse) in H. by rewrite reverse_involutive in H. }
  split.
  - intros H. rewrite Htext. by apply Forall_app.
  - intros H. rewrite Htext in H. by apply Forall_app in H as [_ ?].
Qed.

Lemma split_from_nonempty w text : w ≠ [] → split_from w text ≠ [].
Proof.
  revert w. induction text as [|c text IH]; intros w Hw; simpl.
  { by destruct w. }
  destruct (isspace c); [by destruct w|]. apply IH. by destruct w.
Qed.

Lemma split_nil text : split text = [] ↔ Forall (λ c, isspace c = true) text.
Proof.
  unfold split. induction text as [|c text IH]; simpl; [by split; [constructor|]|].
  destruct (isspace c) eqn:E.
  - rewrite IH. split; [by constructor|by intros [_ ?]%Forall_cons_1].
  - split; [|intros [? _]%Forall_cons_1; congruence].
    intros H. by apply split_from_nonempty in H.
Qed.

Lemma join_nil words : Forall word words → join [space] words = [] → words = [].
Proof.
  intros Hw. destruct Hw as [|w words [Hne _] _]; [done|].
  simpl. destruct words; [done|]. by destruct w.
Qed.

(** [remove_empty_strings] is the filter of [data] by "has a character other
    than white space": it keeps, in order and as often as they occur, exactly
    the strings that [clean_whitespace] does not turn into the empty
    string. *)
Theorem remove_empty_strings_spec (data : list str) :
  remove_empty_strings data
  = List.filter (λ x, existsb (λ c, negb (isspace c)) x) data
  ∧ sublist (remove_empty_strings data) data
  ∧ (∀ x, x ∈ remove_empty_strings data
          ↔ x ∈ data ∧ ∃ c, c ∈ x ∧ isspace c = false)
  ∧ (∀ x, x ∈ remove_empty_strings data ↔ x ∈ data ∧ clean_whitespace x ≠ [])
  ∧ remove_empty_strings (remove_empty_strings data) = remove_empty_strings data.
Proof.
  assert (∀ x, truthy_str x && truthy_str (strip x) = true
               ↔ ¬ Forall (λ c, isspace c = true) x) as Hkeep.
  { intros x. rewrite <- strip_nil. destruct x as [|c x]; [by split|].
    simpl. destruct (strip (c :: x)); simpl; split; congruence. }
  assert (∀ x, clean_whitespace x ≠ [] ↔ ¬ Forall (λ c, isspace c = true) x) as Hclean.
  { intros x. rewrite <- split_nil. unfold clean_whitespace. split.
    - intros H Hs. by rewrite Hs in H.
    - intros H Hj. apply H. apply join_nil; [|done].
      apply split_from_words. constructor. }
  assert (∀ x, (∃ c, c ∈ x ∧ isspace c = false)
               ↔ ¬ Forall (λ c, isspace c = true) x) as Hex.
  { intros x. split.
    - intros (c & Hc & E) Hall. rewrite Forall_forall in Hall.
      apply Hall in Hc. congruence.
    - intros Hnot. apply not_Forall_Exists in Hnot; [|apply _].
      apply Exists_exists in Hnot as (c & Hc & E). exists c. split; [done|].
      by apply not_true_is_false. }
  unfold remove_empty_strings. split; [|split; [|split; [|split]]].
  - apply List.filter_ext. intros x. apply Bool.eq_iff_eq_true.
    rewrite Hkeep, <- Hex, existsb_exists. split.
    + intros (c & Hc & E). exists c.
      split; [by apply list_elem_of_In|by rewrite E].
    + intros (c & Hc & E). exists c.
      split; [by apply list_elem_of_In|by apply negb_true_iff].
  - induction data as [|x data IH]; simpl; [done|].
    destruct (truthy_str x && truthy_str (strip x)); by constructor.
  - intros x. rewrite list_elem_of_In, filter_In, <- list_elem_of_In, Hkeep, Hex. done.
  - intros x. rewrite list_elem_of_In, filter_In, <- list_elem_of_In, Hkeep, Hclean. done.
  - apply filter_all_true, Forall_filter_true.
Qed.

(** ** Dates *)

(** [standardize_dates] only rewrites separators: it keeps the number of dates
    and the length of each, leaves every character other than [/] and [.] as
    it is and turns these two into [-], so that neither occurs in the result;
    and it does not depend on [output_format]. *)
Theorem standardize_dates_spec (dates : list str) (output_format : str) :
  length (standardize_dates dates output_format) = length dates
  ∧ (∀ i (date : str), dates !! i = Some date →
       ∃ out : str, standardize_dates dates output_format !! i = Some out
         ∧ length out = length date
         ∧ (∀ j c, date !! j = Some c →
              out !! j = Some (if bool_decide (c = 47%N ∨ c = 46%N) then 45%N else c))
         ∧ (47%N ∉ out) ∧ (46%N ∉ out))
  ∧ standardize_dates (standardize_dates dates output_format) output_format
    = standardize_dates dates output_format
  ∧ (∀ other, standardize_dates dates other = standardize_dates dates output_format).
Proof.
  assert (∀ c, (if ((if (c =? 47)%N then 45%N else c) =? 46)%N then 45%N
                else (if (c =? 47)%N then 45%N else c))
               = (if bool_decide (c = 47%N ∨ c = 46%N) then 45%N else c)) as Hchar.
  { intros c. destruct (N.eqb_spec c 47) as [->|H47]; [done|].
    destruct (N.eqb_spec c 46) as [->|H46]; [done|].
    rewrite bool_decide_eq_false_2; [done|]. by intros [?|?]. }
  unfold standardize_dates. split; [apply length_fmap|]. split; [|split; [|done]].
  - intros i date Hi. exists (replace_char 46%N 45%N (replace_char 47%N 45%N date)).
    split; [by rewrite list_lookup_fmap, Hi|].
    unfold replace_char. rewrite <- list_fmap_compose.
    split; [apply length_fmap|]. split.
    + intros j c Hj. apply list_lookup_fmap_Some. exists c. split; [|done].
      simpl. by rewrite Hchar.
    + split; intros (c & Hc & _)%list_elem_of_fmap; simpl in Hc;
        rewrite Hchar in Hc; case_bool_decide as Hd; try done;
        apply Hd; [by left|by right].
  - rewrite <- list_fmap_compose. apply list_fmap_ext. intros _ date _. simpl.
    unfold replace_char. rewrite <- !list_fmap_compose.
    apply list_fmap_ext. intros _ c _. simpl. rewrite !Hchar.
    repeat case_bool_decide; try done; naive_solver.
Qed.

(** ** What [clean_dataset] guarantees of its output *)

Lemma sublist_len {A} (l1 l2 : list A) : sublist l1 l2 → (len l1 <= len l2)%Z.
Proof. intros H%sublist_length. unfold len. lia. Qed.

Lemma field_missing_false r field :
  field_missing r field = false ↔
  ∃ v, r !! field = Some v ∧ v ≠ VNone ∧ py_eq v (VStr []) = false.
Proof.
  unfold field_missing. destruct (r !! field) as [v|]; split.
  - intros [Hn He]%orb_false_elim. exists v.
    apply bool_decide_eq_false in Hn. done.
  - intros (w & [= <-] & Hn & He). rewrite He, orb_false_r.
    by apply bool_decide_eq_false.
  - done.
  - by intros (? & ? & _).
Qed.

Lemma clean_value_None v : v ≠ VNone → clean_value v ≠ VNone.
Proof. by destruct v. Qed.

(** Every count of a [clean_dataset] result is a natural number and the
    result is no longer than the input.  In the returned store, every
    returned record meets every configured filter, and holds every configured
    required field with a value other than [None]; in the store it was given,
    that field was not the empty string either, and no two returned records
    agreed on the duplicate key. *)
Theorem clean_dataset_output (h : store) (records : list loc) (c : config) :
  let h' := (clean_dataset h records c).1 in
  let r := (clean_dataset h records c).2 in
  (0 <= removed_duplicates r ∧ 0 <= removed_missing r ∧ 0 <= removed_invalid r
   ∧ 0 <= final_count r <= original_count r)%Z
  ∧ (∀ crit, truthy_list (cfg_filters c) = Some crit →
       ∀ l, l ∈ cleaned_data r → meets crit (deref h' l))
  ∧ (∀ fields, truthy_list (cfg_required_fields c) = Some fields →
       ∀ l field, l ∈ cleaned_data r → field ∈ fields →
       ∃ v, deref h l !! field = Some v ∧ v ≠ VNone ∧ py_eq v (VStr []) = false
         ∧ ∃ v', deref h' l !! field = Some v' ∧ v' ≠ VNone
                 ∧ (v' = v ∨ v' = clean_value v))
  ∧ (∀ key, dedup_key c = Some key → distinct_keys h key (cleaned_data r)).
Proof.
  rewrite clean_dataset_stages. cbv zeta.
  cbn [fst snd cleaned_data removed_duplicates removed_missing removed_invalid
       final_count original_count].
  set (d1 := dedup_stage c h records). set (d2 := missing_stage c h d1).
  set (h' := strings_stage c h d2). set (d3 := filter_stage c h' d2).
  assert (sublist d1 records) as H1 by apply dedup_stage_sublist.
  assert (sublist d2 d1) as H2 by apply missing_stage_sublist.
  assert (sublist d3 d2) as H3 by apply filter_stage_sublist.
  split; [|split; [|split]].
  - apply sublist_len in H1, H2, H3. unfold len in *. lia.
  - intros crit Hcrit l Hl. subst d3. unfold filter_stage in Hl.
    rewrite Hcrit, filter_records_by_criteria_filter in Hl.
    apply list_elem_of_filter in Hl as [Hl _].
    by apply criteria_match_meets, Is_true_true.
  - intros fields Hfields l field Hl Hfield.
    assert (l ∈ d2) as Hl2 by by eapply elem_of_sublist.
    pose proof Hl2 as Hl2'. subst d2. unfold missing_stage in Hl2'.
    rewrite Hfields, remove_records_with_missing_fields_filter in Hl2'.
    apply list_elem_of_filter in Hl2' as [Hall _].
    apply Is_true_true in Hall. rewrite has_all_fields_true in Hall.
    apply Hall, field_missing_false in Hfield as (v & Hv & Hn & He).
    exists v. repeat split; try done.
    subst h'. unfold deref in *. rewrite lookup_strings_stage, decide_True by done.
    destruct (h !! l) as [rec|]; simpl in *; [|by rewrite lookup_empty in Hv].
    unfold normalise. destruct (truthy_list (cfg_string_fields c)) as [sf|].
    + rewrite lookup_clean_record. case_decide.
      * rewrite Hv. simpl. exists (clean_value v).
        split; [done|]. split; [by apply clean_value_None|by right].
      * exists v. auto.
    + exists v. auto.
  - intros key Hkey. apply (distinct_keys_sublist h key d3 d1); [by etrans|].
    subst d1. unfold dedup_stage. rewrite Hkey. apply loop_distinct.
Qed.

(** ** [filter_invalid_records] *)

Lemma filter_invalid_records_filter h records vs :
  filter_invalid_records h records vs
  = filter (λ l, is_valid (deref h l) vs) records.
Proof.
  induction records as [|r rest IH]; simpl; [done|].
  rewrite filter_cons, <- IH.
  destruct (is_valid _ _); by case_decide.
Qed.

Lemma is_valid_true r (vs : validators) :
  is_valid r vs = true ↔
  ∀ field validator v, (field, validator) ∈ vs → r !! field = Some v →
    validator v = true.
Proof.
  induction vs as [|[f p] rest IH]; simpl.
  { split; [|done]. by intros _ ??? ?%elem_of_nil. }
  destruct (r !! f) as [w|] eqn:Hw.
  - destruct (p w) eqn:Hp; simpl.
    + rewrite IH. split.
      * intros Hrest g q v [[= -> ->]|?]%elem_of_cons Hg; [congruence|eauto].
      * intros Hall g q v Hin. apply Hall. by apply list_elem_of_further.
    + split; [done|]. intros Hall. rewrite <- Hp.
      apply (Hall f p w); [apply list_elem_of_here|done].
  - rewrite IH. split.
    + intros Hrest g q v [[= -> ->]|?]%elem_of_cons Hg; [congruence|eauto].
    + intros Hall g q v Hin. apply Hall. by apply list_elem_of_further.
Qed.

Lemma is_valid_app r (vs1 vs2 : validators) :
  is_valid r (vs1 ++ vs2) = is_valid r vs1 && is_valid r vs2.
Proof.
  induction vs1 as [|[f p] rest IH]; simpl; [done|].
  destruct (r !! f) as [w|]; [|done]. by destruct (p w).
Qed.

(** [filter_invalid_records] returns, in order, the records of which every
    field that has a validator and is present passes it: a record that lacks
    a validated field is not rejected for it, and without validators every
    record is kept.  Filtering the result again changes nothing, and
    filtering by one set of validators and then by another is filtering by
    both. *)
Theorem filter_invalid_records_spec (h : store) (records : list loc)
    (vs vs' : validators) :
  sublist (filter_invalid_records h records vs) records
  ∧ (∀ l, l ∈ filter_invalid_records h records vs ↔
       l ∈ records ∧
       ∀ field validator v, (field, validator) ∈ vs →
         deref h l !! field = Some v → validator v = true)
  ∧ (∀ l, l ∈ records →
       (∀ field validator, (field, validator) ∈ vs → deref h l !! field = None) →
       l ∈ filter_invalid_records h records vs)
  ∧ filter_invalid_records h records [] = records
  ∧ filter_invalid_records h (filter_invalid_records h records vs) vs
    = filter_invalid_records h records vs
  ∧ filter_invalid_records h (filter_invalid_records h records vs) vs'
    = filter_invalid_records h records (vs ++ vs').
Proof.
  rewrite !filter_invalid_records_filter.
  split; [apply sublist_filter|]. split; [|split; [|split; [|split]]].
  - intros l. rewrite list_elem_of_filter, Is_true_true, is_valid_true. tauto.
  - intros l Hl Hnone. apply list_elem_of_filter. split; [|done].
    apply Is_true_true, is_valid_true. intros f p v Hin Hv.
    rewrite (Hnone f p Hin) in Hv. done.
  - by apply filter_id, Forall_forall.
  - by apply (filter_stable _ records).
  - rewrite list_filter_filter. apply list_filter_iff. intros l.
    rewrite is_valid_app, andb_True. tauto.
Qed.

(** ** [find_duplicates] *)

Lemma seen_mem_set_add v s x : seen_mem v (set_add s x) = seen_mem v s || py_eq v x.
Proof.
  unfold set_add. destruct (seen_mem x s) eqn:Hx.
  - destruct (py_eq v x) eqn:E; [|by rewrite orb_false_r].
    by rewrite (seen_mem_congr v x s E), Hx.
  - by rewrite seen_mem_app, seen_mem_cons, orb_false_r.
Qed.

Lemma distinct_values_snoc s x :
  distinct_values s → seen_mem x s = false → distinct_values (s ++ [x]).
Proof.
  induction s as [|a s IH]; simpl; [done|].
  intros [Ha Hd] [Hxa Hx]%orb_false_elim. split; [|by apply IH].
  rewrite seen_mem_app, Ha, seen_mem_cons, py_eq_sym, Hxa. done.
Qed.

Lemma distinct_values_set_add s x : distinct_values s → distinct_values (set_add s x).
Proof.
  intros Hd. unfold set_add. destruct (seen_mem x s) eqn:Hx; [done|].
  by apply distinct_values_snoc.
Qed.

Lemma elem_of_set_add s x y : y ∈ set_add s x → y ∈ s ∨ y = x.
Proof.
  unfold set_add. destruct (seen_mem x s); [auto|].
  intros [?|Hy%list_elem_of_singleton]%elem_of_app; subst; auto.
Qed.

Lemma count_snoc v items x :
  count v (items ++ [x]) = (count v items + if py_eq v x then 1 else 0)%nat.
Proof.
  unfold count. rewrite List.filter_app, length_app. simpl.
  by destruct (py_eq v x).
Qed.

Lemma count_cons v x items :
  count v (x :: items) = ((if py_eq v x then 1 else 0) + count v items)%nat.
Proof. unfold count. simpl. by destruct (py_eq v x). Qed.

Lemma count_congr v w items : py_eq v w = true → count v items = count w items.
Proof.
  intros E. unfold count. f_equal. apply List.filter_ext.
  intros x. by apply py_eq_congr_l.
Qed.

Lemma seen_mem_count v items : seen_mem v items = (1 <=? count v items)%nat.
Proof.
  induction items as [|x items IH]; [done|].
  rewrite seen_mem_cons, count_cons, IH.
  destruct (py_eq v x); simpl; [done|]. done.
Qed.

Lemma distinct_values_count items :
  distinct_values items ↔ ∀ v, (count v items <= 1)%nat.
Proof.
  induction items as [|x items IH]; simpl.
  { split; [intros _ v; unfold count; simpl; lia|done]. }
  rewrite IH. split.
  - intros [Hx Hd] v. rewrite count_cons. specialize (Hd v).
    destruct (py_eq v x) eqn:E; [|lia].
    rewrite (count_congr v x items E).
    rewrite seen_mem_count in Hx. apply Nat.leb_gt in Hx. lia.
  - intros Hall. split.
    + specialize (Hall x). rewrite count_cons, py_eq_refl in Hall.
      rewrite seen_mem_count. apply Nat.leb_gt. lia.
    + intros v. specialize (Hall v). rewrite count_cons in Hall. lia.
Qed.

(** What the two sets hold after the loop has read [items]. *)
Lemma find_duplicates_loop items :
  let state := foldl find_duplicates_step ([], []) items in
  (∀ v, seen_mem v state.1 = (1 <=? count v items)%nat)
  ∧ (∀ v, seen_mem v state.2 = (2 <=? count v items)%nat)
  ∧ distinct_values state.2
  ∧ (∀ x, x ∈ state.2 → x ∈ items).
Proof.
  induction items as [|x items IH] using rev_ind.
  { cbn. repeat split; try done; by intros ? ?%elem_of_nil. }
  cbv zeta in *. rewrite foldl_snoc.
  destruct (foldl find_duplicates_step ([], []) items) as [seen dups].
  cbn [fst snd] in IH. destruct IH as (Hseen & Hdups & Hd & Hin).
  cbn [find_duplicates_step fst snd].
  assert (∀ v, py_eq v x = true → count v items = count x items) as Hcongr
    by (intros v E; by apply count_congr).
  pose proof (Hseen x) as Hx. split; [|split; [|split]].
  - intros v. rewrite seen_mem_set_add, Hseen, count_snoc.
    destruct (py_eq v x); [|by rewrite orb_false_r, Nat.add_0_r].
    rewrite orb_true_r. symmetry. apply Nat.leb_le. lia.
  - intros v. rewrite count_snoc. destruct (seen_mem x seen).
    + rewrite seen_mem_set_add, Hdups.
      destruct (py_eq v x) eqn:E; [|by rewrite orb_false_r, Nat.add_0_r].
      rewrite orb_true_r, (Hcongr v E). symmetry in Hx.
      apply Nat.leb_le in Hx. symmetry. apply Nat.leb_le. lia.
    + rewrite Hdups. destruct (py_eq v x) eqn:E; [|by rewrite Nat.add_0_r].
      rewrite (Hcongr v E). symmetry in Hx. apply Nat.leb_gt in Hx.
      transitivity false; [|symmetry]; apply Nat.leb_gt; lia.
  - destruct (seen_mem x seen); [by apply distinct_values_set_add|done].
  - intros y Hy. apply elem_of_app. destruct (seen_mem x seen).
    + apply elem_of_set_add in Hy as [Hy| ->]; [by left; apply Hin|].
      right. apply list_elem_of_here.
    + left. by apply Hin.
Qed.

Lemma seen_mem_nil_iff s : s = [] ↔ ∀ v, seen_mem v s = false.
Proof.
  split; [by intros ->|]. destruct s as [|x s]; [done|].
  intros H. specialize (H x). by rewrite seen_mem_cons, py_eq_refl in H.
Qed.

(** The duplicates [find_duplicates] returns are the values that occur at
    least twice in [items]: each is reported once, whatever the number of its
    repetitions, and the list is empty exactly for a list without
    repetitions, which is a list that [remove_duplicates_simple] leaves as it
    is. *)
Theorem find_duplicates_spec (items : list value) :
  (∀ v, seen_mem v (find_duplicates items) = true ↔ (2 <= count v items)%nat)
  ∧ distinct_values (find_duplicates items)
  ∧ (∀ x, x ∈ find_duplicates items → x ∈ items)
  ∧ (find_duplicates items = [] ↔ distinct_values items)
  ∧ (find_duplicates items = [] ↔ remove_duplicates_simple items = items)
  ∧ find_duplicates (remove_duplicates_simple items) = [].
Proof.
  assert (∀ l, find_duplicates l = [] ↔ distinct_values l) as Hnil.
  { intros l. destruct (find_duplicates_loop l) as (_ & Hdups & _).
    unfold find_duplicates. rewrite seen_mem_nil_iff, distinct_values_count.
    split; intros H v; specialize (H v).
    - rewrite Hdups in H. apply Nat.leb_gt in H. lia.
    - rewrite Hdups. apply Nat.leb_gt. lia. }
  destruct (find_duplicates_loop items) as (_ & Hdups & Hd & Hin).
  unfold find_duplicates at 1 2 3. cbv zeta in *.
  split; [|split; [done|split; [done|split; [done|split]]]].
  - intros v. by rewrite Hdups, Nat.leb_le.
  - rewrite Hnil. unfold remove_duplicates_simple. split.
    + intros Hdist. by apply simple_loop_id.
    + intros <-. apply simple_loop_distinct.
  - apply Hnil. apply simple_loop_distinct.
Qed.

(** ** [clean_and_convert_currency] *)











(** The amount of the docstring, and an amount that loses its sign. *)
Example clean_and_convert_currency_demo :
  clean_and_convert_currency (py "$1,234.56") = Some 1234.56%R
  ∧ clean_and_convert_currency (py "-5") = Some 5%R
  ∧ clean_and_convert_currency (py "1.2.3") = None
  ∧ clean_and_convert_currency (py "n/a") = None.
Proof.
  repeat split; try (by vm_compute);
    cbv -[Rplus Rmult Rdiv Rinv IZR pow Rminus Ropp]; f_equal; lra.
Qed.


(** ** Regular expressions *)

Lemma nullable_lang r : nullable r = true ↔ lang r [].
Proof.
  induction r as [| |p|r1 IH1 r2 IH2|r1 IH1 r2 IH2|r IH]; simpl.
  - done.
  - done.
  - split; [done|]. by intros (c & ? & _).
  - rewrite andb_true_iff, IH1, IH2. split.
    + intros [H1 H2]. by exists [], [].
    + intros (s1 & s2 & Hs & H1 & H2). symmetry in Hs.
      apply app_eq_nil in Hs as [-> ->]. done.
  - by rewrite orb_true_iff, IH1, IH2.
  - split; [|done]. intros _. by exists [].
Qed.

Lemma deriv_lang c r s : lang (deriv c r) s ↔ lang r (c :: s).
Proof.
  revert s. induction r as [| |p|r1 IH1 r2 IH2|r1 IH1 r2 IH2|r IH]; intros s; simpl.
  - done.
  - done.
  - destruct (p c) eqn:Hp; simpl.
    + split; [intros ->; by exists c|]. by intros (d & [= -> ->] & _).
    + split; [done|]. intros (d & [= -> ->] & Hd). congruence.
  - assert ((∃ s1 s2, s = s1 ++ s2 ∧ lang (deriv c r1) s1 ∧ lang r2 s2)
            ↔ ∃ s1 s2, c :: s = (c :: s1) ++ s2 ∧ lang r1 (c :: s1) ∧ lang r2 s2) as Hseq.
    { split; intros (s1 & s2 & Hs & H1 & H2); exists s1, s2.
      - subst s. by rewrite <- IH1.
      - simplify_eq/=. by rewrite IH1. }
    destruct (nullable r1) eqn:Hn; simpl.
    + rewrite Hseq, IH2. split.
      * intros [(s1 & s2 & Hs & H1 & H2)|H2]; [by exists (c :: s1), s2|].
        exists [], (c :: s). by rewrite <- nullable_lang.
      * intros (s1 & s2 & Hs & H1 & H2). destruct s1 as [|d s1].
        -- right. simpl in Hs. by subst s2.
        -- left. simplify_eq/=. by exists s1, s2.
    + rewrite Hseq. split.
      * intros (s1 & s2 & Hs & H1 & H2). by exists (c :: s1), s2.
      * intros (s1 & s2 & Hs & H1 & H2). destruct s1 as [|d s1].
        -- apply nullable_lang in H1. congruence.
        -- simplify_eq/=. by exists s1, s2.
  - by rewrite IH1, IH2.
  - split.
    + intros (s1 & s2 & -> & H1 & ss & -> & Hss). exists ((c :: s1) :: ss).
      split; [done|]. constructor; [|done]. split; [done|]. by apply IH.
    + intros (ss & Hs & Hss). destruct Hss as [|w ss [Hw Hr] Hss]; [done|].
      destruct w as [|d w]; [done|]. simplify_eq/=.
      exists w, (concat ss). split; [done|]. split; [by apply IH|]. by exists ss.
Qed.

Lemma fullmatch_lang r s : fullmatch r s = true ↔ lang r s.
Proof.
  unfold fullmatch. revert r. induction s as [|c s IH]; intros r; simpl.
  - apply nullable_lang.
  - by rewrite IH, deriv_lang.
Qed.

Lemma lang_class p s : lang (Class p) s ↔ ∃ c, s = [c] ∧ p c = true.
Proof. done. Qed.

Lemma lang_star_class p s : lang (Star (Class p)) s ↔ all_in p s.
Proof.
  unfold all_in. simpl. split.
  - intros (ss & -> & Hss). induction Hss as [|w ss [_ (c & -> & Hc)] _ IH]; simpl.
    + constructor.
    + by constructor.
  - intros Hs. exists ((λ c, [c]) <$> s). split.
    + induction s as [|c s IH]; [done|]. simpl. f_equal. apply IH.
      by apply Forall_inv_tail in Hs.
    + apply Forall_fmap. eapply Forall_impl; [done|]. intros c Hc. simpl.
      split; [done|]. by exists c.
Qed.

Lemma lang_plus_class p s : lang (plus (Class p)) s ↔ s ≠ [] ∧ all_in p s.
Proof.
  unfold plus. cbn [lang]. setoid_rewrite (lang_star_class p). split.
  - intros (s1 & s2 & -> & (c & -> & Hc) & H2). split; [done|]. by constructor.
  - intros [Hne Hs]. destruct Hs as [|c s Hc Hs]; [done|].
    exists [c], s. split; [done|]. split; [by exists c|done].
Qed.

Lemma lang_at_least_two p s :
  lang (at_least_two (Class p)) s ↔ (2 <= length s)%nat ∧ all_in p s.
Proof.
  unfold at_least_two. cbn [lang]. setoid_rewrite (lang_star_class p). split.
  - intros (s1 & s2 & -> & (c & -> & Hc) & s3 & s4 & -> & (d & -> & Hd) & H4).
    split; [simpl; lia|]. by repeat constructor.
  - intros [Hlen Hs]. destruct Hs as [|c s Hc Hs]; [simpl in Hlen; lia|].
    destruct Hs as [|d s Hd Hs]; [simpl in Hlen; lia|].
    exists [c], (d :: s). split; [done|]. split; [by exists c|].
    exists [d], s. split; [done|]. split; [by exists d|done].
Qed.

Lemma lang_dollar s : lang dollar s ↔ s = [] ∨ s = [10%N].
Proof.
  unfold dollar. cbn [lang]. split.
  - intros [->|(c & -> & <-%N.eqb_eq)]; auto.
  - intros [->| ->]; [by left|]. right. by exists 10%N.
Qed.

(** ** [validate_email] *)

Lemma ats_app s1 s2 : ats (s1 ++ s2) = (ats s1 + ats s2)%nat.
Proof. unfold ats. by rewrite List.filter_app, length_app. Qed.

Lemma ats_class p s : p 64%N = false → all_in p s → ats s = 0%nat.
Proof.
  intros Hp. unfold ats. induction 1 as [|c s Hc _ IH]; [done|].
  cbn [List.filter]. destruct (N.eqb_spec 64 c) as [<-|_]; [congruence|done].
Qed.

Lemma address_snoc (l d t : str) (x : char) :
  l ++ 64%N :: d ++ 46%N :: t ++ [x] = (l ++ 64%N :: d ++ 46%N :: t) ++ [x].
Proof. rewrite <- app_assoc. simpl. by rewrite <- app_assoc. Qed.

(** The strings the pattern matches. *)
Lemma validate_email_shape (email : str) :
  validate_email email = true ↔
  ∃ local domain tld tail : str,
    email = local ++ 64%N :: domain ++ 46%N :: tld ++ tail
    ∧ (local ≠ [] ∧ all_in local_char local)
    ∧ (domain ≠ [] ∧ all_in domain_char domain)
    ∧ ((2 <= length tld)%nat ∧ all_in ascii_alpha tld)
    ∧ (tail = [] ∨ tail = [10%N]).
Proof.
  unfold validate_email. rewrite fullmatch_lang. unfold email_pattern. split.
  - intros (l & s1 & -> & Hl%lang_plus_class
            & a & s2 & -> & (c1 & -> & <-%N.eqb_eq)
            & d & s3 & -> & Hd%lang_plus_class
            & o & s4 & -> & (c2 & -> & <-%N.eqb_eq)
            & t & tail & -> & Ht%lang_at_least_two & Htail%lang_dollar).
    by exists l, d, t, tail.
  - intros (l & d & t & tail & -> & Hl & Hd & Ht & Htail).
    exists l, (64%N :: d ++ 46%N :: t ++ tail).
    split; [done|]. split; [by apply lang_plus_class|].
    exists [64%N], (d ++ 46%N :: t ++ tail).
    split; [done|]. split; [by exists 64%N|].
    exists d, (46%N :: t ++ tail).
    split; [done|]. split; [by apply lang_plus_class|].
    exists [46%N], (t ++ tail).
    split; [done|]. split; [by exists 46%N|].
    exists t, tail.
    split; [done|]. split; [by apply lang_at_least_two|by apply lang_dollar].
Qed.

(** Addresses the pattern accepts, and some it does not. *)
Example validate_email_demo :
  validate_email (py "user@example.com") = true
  ∧ validate_email (py "first.last+tag@sub.example.org") = true
  ∧ validate_email (py "user@example.com" ++ [10%N]) = true
  ∧ validate_email (py "a@-.co") = true
  ∧ validate_email (py "user@example") = false
  ∧ validate_email (py "user@example.c") = false
  ∧ validate_email (py "us er@example.com") = false
  ∧ validate_email (py "user@@example.com") = false
  ∧ validate_email (py "@example.com") = false
  ∧ validate_email [] = false.
Proof. repeat split; by vm_compute. Qed.

(** [validate_email] accepts exactly the strings made of a non-empty local
    part of the characters [a-zA-Z0-9._%+-], an [@], a non-empty domain of the
    characters [a-zA-Z0-9.-], a point and at least two letters [a-zA-Z],
    followed by nothing or by one newline.  An accepted string holds exactly
    one [@], and appending a newline to a string keeps it accepted exactly
    when it was accepted without one. *)
Theorem validate_email_spec (email : str) :
  (validate_email email = true ↔
     ∃ local domain tld tail : str,
       email = local ++ 64%N :: domain ++ 46%N :: tld ++ tail
       ∧ (local ≠ [] ∧ all_in local_char local)
       ∧ (domain ≠ [] ∧ all_in domain_char domain)
       ∧ ((2 <= length tld)%nat ∧ all_in ascii_alpha tld)
       ∧ (tail = [] ∨ tail = [10%N]))
  ∧ (validate_email email = true → ats email = 1%nat)
  ∧ (validate_email (email ++ [10%N]) = true ↔
       validate_email email = true ∧ last email ≠ Some 10%N).
Proof.
  split; [apply validate_email_shape|]. split.
  - intros (l & d & t & tail & -> & [_ Hl] & [_ Hd] & [_ Ht] & Htail)%validate_email_shape.
    change (64%N :: d ++ 46%N :: t ++ tail)
      with ([64%N] ++ d ++ [46%N] ++ t ++ tail).
    rewrite !ats_app, (ats_class local_char l), (ats_class domain_char d),
      (ats_class ascii_alpha t) by done.
    destruct Htail as [-> | ->]; done.
  - rewrite !validate_email_shape. split.
    + intros (l & d & t & tail & Heq & Hl & Hd & [Hlen Ht] & Htail).
      destruct Htail as [-> | ->].
      * exfalso. rewrite app_nil_r in Heq.
        destruct t as [|x t _] using rev_ind; [simpl in Hlen; lia|].
        rewrite address_snoc in Heq. apply app_inj_tail in Heq as [_ <-].
        apply Forall_app in Ht as [_ Ht]. by apply Forall_inv in Ht.
      * rewrite address_snoc in Heq. apply app_inj_tail in Heq as [-> _].
        split.
        -- exists l, d, t, []. rewrite app_nil_r. repeat split; tauto.
        -- destruct t as [|x t _] using rev_ind; [simpl in Hlen; lia|].
           rewrite address_snoc, last_snoc. intros [= ->].
           apply Forall_app in Ht as [_ Ht]. by apply Forall_inv in Ht.
    + intros [(l & d & t & tail & -> & Hl & Hd & Ht & Htail) Hlast].
      destruct Htail as [-> | ->].
      * exists l, d, t, [10%N]. rewrite app_nil_r.
        repeat split; try tauto. by rewrite address_snoc.
      * exfalso. apply Hlast.
        by rewrite address_snoc, last_snoc.
Qed.

(** ** Filters, maps and chains *)

Lemma List_filter_filter {A} (p q : A → bool) (l : list A) :
  List.filter q (List.filter p l) = List.filter (λ x, p x && q x) l.
Proof.
  induction l as [|x l IH]; [done|]. simpl.
  destruct (p x); simpl; [|done]. destruct (q x); by rewrite IH.
Qed.

Lemma List_filter_fmap {A B} (f : A → B) (p : B → bool) (l : list A) :
  List.filter p (f <$> l) = f <$> List.filter (p ∘ f) l.
Proof.
  induction l as [|x l IH]; [done|].
  rewrite fmap_cons. cbn [List.filter compose].
  destruct (p (f x)); [rewrite fmap_cons|]; by rewrite IH.
Qed.

(** Filters and maps fuse: two [filter_by_condition] in a row are one with
    both conditions, two [apply_transformation] are one with the composed
    function, and a filter after a map is the map after the filter of the
    composed condition.  [chain_transformations] over a list of functions put
    together from two lists is the chain of the second over the chain of the
    first.  [filter_even_numbers] keeps the even numbers, negative ones too,
    and so all of a list of doubled numbers. *)
Theorem transformations_compose {A B C} (data : list A) (f : A → B) (g : B → C)
    (p q : A → bool) (r : B → bool) (functions more : list (list A → list A))
    (numbers : list Z) :
  filter_by_condition (filter_by_condition data p) q
  = filter_by_condition data (λ x, p x && q x)
  ∧ apply_transformation (apply_transformation data f) g
    = apply_transformation data (g ∘ f)
  ∧ filter_by_condition (apply_transformation data f) r
    = apply_transformation (filter_by_condition data (r ∘ f)) f
  ∧ chain_transformations data (functions ++ more)
    = chain_transformations (chain_transformations data functions) more
  ∧ chain_transformations data
      [λ l, filter_by_condition l p; λ l, filter_by_condition l q]
    = filter_by_condition data (λ x, p x && q x)
  ∧ filter_even_numbers numbers = filter_by_condition numbers Z.even
  ∧ filter_even_numbers (apply_transformation numbers (λ n, n * 2)%Z)
    = apply_transformation numbers (λ n, n * 2)%Z.
Proof.
  unfold filter_by_condition, apply_transformation, chain_transformations,
    filter_even_numbers.
  split; [apply List_filter_filter|]. split; [by rewrite <- list_fmap_compose|].
  split; [apply List_filter_fmap|]. split; [apply foldl_app|].
  split; [apply List_filter_filter|]. split.
  - apply List.filter_ext. intros n. rewrite Zeven_mod. done.
  - apply filter_all_true. apply Forall_fmap, Forall_forall. intros n _. simpl.
    apply Z.eqb_eq. by rewrite Z.mod_mul.
Qed.

(** ** [filter_dict_by_value] *)

(** [filter_dict_by_value] keeps the entries whose value is strictly above
    the threshold, unchanged: an entry equal to the threshold is dropped.
    Raising the threshold keeps fewer entries, and filtering by two
    thresholds in a row is filtering by the greater. *)
Theorem filter_dict_by_value_spec (data : gmap string R) (threshold other : R) :
  (∀ key v, filter_dict_by_value data threshold !! key = Some v ↔
     data !! key = Some v ∧ (threshold < v)%R)
  ∧ filter_dict_by_value data threshold ⊆ data
  ∧ (∀ key, data !! key = Some threshold →
       filter_dict_by_value data threshold !! key = None)
  ∧ ((threshold <= other)%R →
       filter_dict_by_value data other ⊆ filter_dict_by_value data threshold)
  ∧ filter_dict_by_value (filter_dict_by_value data threshold) other
    = filter_dict_by_value data (Rmax threshold other).
Proof.
  assert (∀ t key v, filter_dict_by_value data t !! key = Some v ↔
     data !! key = Some v ∧ (t < v)%R) as Hlookup.
  { intros t key v. unfold filter_dict_by_value. by rewrite map_lookup_filter_Some. }
  split; [apply Hlookup|]. split; [apply map_filter_subseteq|].
  split; [|split].
  - intros key Hkey. apply eq_None_not_Some. intros [v Hv].
    apply Hlookup in Hv as [Hv Hlt]. rewrite Hkey in Hv. simplify_eq. lra.
  - intros Hle. apply map_subseteq_spec. intros key v.
    rewrite !Hlookup. intros [? ?]. split; [done|lra].
  - apply map_eq. intros key. apply option_eq. intros v.
    unfold filter_dict_by_value. rewrite !map_lookup_filter_Some. simpl.
    unfold Rmax. destruct (Rle_dec threshold other);
      (split; [intros [[? ?] ?]|intros [? ?]]); repeat split; try done; lra.
Qed.

(** ** [flatten_nested_list] *)

Lemma sliding_window_one {A} (data : list A) :
  sliding_window data 1 = (λ x, [x]) <$> data.
Proof.
  unfold sliding_window. apply list_eq. intros i.
  rewrite !list_lookup_fmap, py_range_lookup.
  destruct (data !! i) as [x|] eqn:Hx; simpl.
  - pose proof (lookup_lt_Some _ _ _ Hx) as Hlt.
    rewrite decide_True by (unfold len; lia). simpl. f_equal.
    rewrite py_slice_window by (unfold len; lia).
    by rewrite (drop_S _ _ _ Hx).
  - apply lookup_ge_None in Hx. rewrite decide_False by (unfold len; lia). done.
Qed.

Lemma flatten_nested_list_concat {A} (nested : list (list A)) :
  flatten_nested_list nested = concat nested.
Proof.
  assert (∀ l : list A, l ≫= (λ item, [item]) = l) as Hid.
  { induction l as [|x l IHl]; [done|]. by rewrite bind_cons, IHl. }
  unfold flatten_nested_list. induction nested as [|l nested IH]; [done|].
  rewrite bind_cons, IH, Hid. done.
Qed.

(** [flatten_nested_list] puts the sublists one after the other: its items
    are the items of the sublists, as many as they hold together, and
    flattening distributes over putting two lists of lists together.  It
    undoes [sliding_window] with windows of one item. *)
Theorem flatten_nested_list_spec {A} (nested more : list (list A)) (data : list A) :
  flatten_nested_list nested = concat nested
  ∧ (∀ x, x ∈ flatten_nested_list nested ↔ ∃ l, l ∈ nested ∧ x ∈ l)
  ∧ length (flatten_nested_list nested) = sum_list (length <$> nested)
  ∧ flatten_nested_list (nested ++ more)
    = flatten_nested_list nested ++ flatten_nested_list more
  ∧ flatten_nested_list (sliding_window data 1) = data.
Proof.
  rewrite !flatten_nested_list_concat.
  split; [done|]. split; [|split; [|split]].
  - intros x. induction nested as [|l nested IH]; simpl.
    + split; [by intros ?%elem_of_nil|]. by intros (l & ?%elem_of_nil & _).
    + rewrite elem_of_app, IH. split.
      * intros [Hx|(l' & Hl' & Hx)]; [exists l|exists l'];
          (split; [|done]); [apply list_elem_of_here|by apply list_elem_of_further].
      * intros (l' & [->|Hl']%elem_of_cons & Hx); [by left|right; by exists l'].
  - induction nested as [|l nested IH]; [done|]. simpl.
    by rewrite length_app, IH.
  - apply concat_app.
  - rewrite sliding_window_one. induction data as [|x data IH]; [done|].
    rewrite fmap_cons. cbn [concat app]. by rewrite IH.
Qed.

(** ** [find_duplicate_rows] *)

Lemma string_leb_trans s1 s2 s3 :
  String.leb s1 s2 = true → String.leb s2 s3 = true → String.leb s1 s3 = true.
Proof.
  unfold String.leb. revert s2 s3.
  induction s1 as [|c1 s1 IH]; intros [|c2 s2] [|c3 s3]; simpl; try done.
  unfold Ascii.compare.
  destruct (N.compare_spec (Ascii.N_of_ascii c1) (Ascii.N_of_ascii c2));
    destruct (N.compare_spec (Ascii.N_of_ascii c2) (Ascii.N_of_ascii c3));
    destruct (N.compare_spec (Ascii.N_of_ascii c1) (Ascii.N_of_ascii c3));
    try done; try lia.
  apply IH.
Qed.

Global Instance string_le_trans : Transitive string_le.
Proof.
  intros a b c Hab%Is_true_true Hbc%Is_true_true.
  apply Is_true_true. by eapply string_leb_trans.
Qed.

Global Instance string_le_antisymm : AntiSymm (=) string_le.
Proof. intros a b Hab%Is_true_true Hba%Is_true_true. by apply String.leb_antisym. Qed.

Global Instance items_le_total : Total items_le.
Proof.
  intros a b. unfold items_le.
  destruct (String.leb_total a.1 b.1) as [H|H]; [left|right]; by apply Is_true_true.
Qed.

Lemma row_key_Permutation r : row_key r ≡ₚ map_to_list r.
Proof. apply merge_sort_Permutation. Qed.

Lemma row_key_Sorted r : Sorted string_le (row_key r).*1.
Proof.
  apply (Sorted_fmap fst items_le string_le); [done|].
  apply Sorted_merge_sort, _.
Qed.

Lemma elem_of_row_key r k v : (k, v) ∈ row_key r ↔ r !! k = Some v.
Proof. by rewrite row_key_Permutation, elem_of_map_to_list. Qed.

Lemma tuple_eq_Forall2 k1 k2 :
  tuple_eq k1 k2 = true ↔
  Forall2 (λ a b, a.1 = b.1 ∧ py_eq a.2 b.2 = true) k1 k2.
Proof.
  revert k2. induction k1 as [|a k1 IH]; intros [|b k2]; simpl.
  - split; [constructor|done].
  - split; [done|]. by intros ?%Forall2_nil_cons_inv.
  - split; [done|]. by intros ?%Forall2_cons_nil_inv.
  - rewrite !andb_true_iff, bool_decide_eq_true, IH, Forall2_cons. tauto.
Qed.

Lemma row_key_lookup (Q : value → value → Prop) r1 r2 :
  Forall2 (λ a b, a.1 = b.1 ∧ Q a.2 b.2) (row_key r1) (row_key r2) →
  ∀ k v1, r1 !! k = Some v1 → ∃ v2, r2 !! k = Some v2 ∧ Q v1 v2.
Proof.
  intros Hall k v1 Hv1. apply elem_of_row_key, list_elem_of_lookup in Hv1 as [i Hi].
  destruct (Forall2_lookup_l _ _ _ _ _ Hall Hi) as ([k' v2] & Hi2 & Hk & HQ).
  simpl in *. subst k'. exists v2. split; [|done].
  apply elem_of_row_key. by eapply list_elem_of_lookup_2.
Qed.

(** The keys of two records are equal exactly when the records are. *)
Lemma tuple_eq_same_row r1 r2 :
  tuple_eq (row_key r1) (row_key r2) = true ↔ same_row r1 r2.
Proof.
  rewrite tuple_eq_Forall2. split.
  - intros Hall k.
    destruct (r1 !! k) as [v1|] eqn:H1.
    + destruct (row_key_lookup (λ a b, py_eq a b = true) r1 r2 Hall k v1 H1)
        as (v2 & -> & ?). done.
    + destruct (r2 !! k) as [v2|] eqn:H2; [|done].
      apply Forall2_flip in Hall.
      destruct (row_key_lookup (λ b a, py_eq a b = true) r2 r1) with k v2
        as (v1 & Hv1 & _); [|done|congruence].
      eapply Forall2_impl; [done|]. simpl. by intros a b [-> ?].
  - intros Hsame.
    assert ((row_key r1).*1 = (row_key r2).*1) as Hkeys.
    { apply (Sorted_unique string_le); try apply row_key_Sorted.
      rewrite !row_key_Permutation.
      apply NoDup_Permutation; try apply NoDup_fst_map_to_list.
      intros k. rewrite !list_elem_of_fmap.
      specialize (Hsame k). split.
      - intros ([k' v] & -> & Hv%elem_of_map_to_list). simpl in *.
        rewrite Hv in Hsame. destruct (r2 !! k') as [v2|] eqn:H2; [|done].
        exists (k', v2). split; [done|]. by apply elem_of_map_to_list.
      - intros ([k' v] & -> & Hv%elem_of_map_to_list). simpl in *.
        rewrite Hv in Hsame. destruct (r1 !! k') as [v1|] eqn:H1; [|done].
        exists (k', v1). split; [done|]. by apply elem_of_map_to_list. }
    apply Forall2_same_length_lookup_2.
    { apply (f_equal length) in Hkeys. by rewrite !length_fmap in Hkeys. }
    intros i [k1 v1] [k2 v2] H1 H2. simpl.
    assert (k1 = k2) as <-.
    { apply (f_equal (λ l, l !! i)) in Hkeys.
      rewrite !list_lookup_fmap, H1, H2 in Hkeys. by simplify_eq/=. }
    split; [done|].
    apply list_elem_of_lookup_2, elem_of_row_key in H1, H2.
    specialize (Hsame k1). by rewrite H1, H2 in Hsame.
Qed.

Lemma same_row_refl r : same_row r r.
Proof. intros k. destruct (r !! k); [apply py_eq_refl|done]. Qed.

Lemma same_row_sym r1 r2 : same_row r1 r2 → same_row r2 r1.
Proof.
  intros H k. specialize (H k).
  destruct (r1 !! k), (r2 !! k); try done. by rewrite py_eq_sym.
Qed.

Lemma same_row_trans r1 r2 r3 : same_row r1 r2 → same_row r2 r3 → same_row r1 r3.
Proof.
  intros H12 H23 k. specialize (H12 k). specialize (H23 k).
  destruct (r1 !! k), (r2 !! k), (r3 !! k); try done. by eapply py_eq_trans.
Qed.

(** Membership of a key among the keys seen. *)
Lemma key_seen_true r seen :
  existsb (tuple_eq (row_key r)) (row_key <$> seen) = true ↔
  ∃ r', r' ∈ seen ∧ same_row r r'.
Proof.
  rewrite existsb_exists. setoid_rewrite <- list_elem_of_In.
  setoid_rewrite list_elem_of_fmap. split.
  - intros (key & (r' & -> & Hr') & Heq%tuple_eq_same_row). eauto.
  - intros (r' & Hr' & Heq%tuple_eq_same_row). eauto.
Qed.

Ltac same_test :=
  match goal with
  | |- (if ?x then _ else _) = (if ?y then _ else _) =>
      replace x with y; [done|symmetry]
  end.

(** Reading one more record at the end: it is reported exactly when a record
    before it, or one of those seen already, equals it. *)
Lemma find_duplicate_rows_loop_snoc h seen records r :
  find_duplicate_rows_loop h (row_key <$> seen) (records ++ [r])
  = find_duplicate_rows_loop h (row_key <$> seen) records
    ++ (if existsb (tuple_eq (row_key (deref h r)))
             (row_key <$> ((deref h <$> records) ++ seen))
        then [r] else []).
Proof.
  revert seen. induction records as [|a rest IH]; intros seen.
  { simpl. by destruct (existsb _ _). }
  cbn [app find_duplicate_rows_loop]. cbv zeta.
  destruct (existsb (tuple_eq (row_key (deref h a))) (row_key <$> seen)) eqn:Ha.
  - rewrite IH. cbn [app]. do 2 f_equal. same_test.
    apply eq_true_iff_eq. rewrite !key_seen_true.
    apply key_seen_true in Ha as (a' & Ha' & Hsame).
    rewrite fmap_cons. setoid_rewrite elem_of_cons. split.
    + intros (r' & Hr' & Hrr'). eauto.
    + intros (r' & [->|Hr'] & Hrr'); [|eauto].
      exists a'. split; [apply elem_of_app; by right|]. by eapply same_row_trans.
  - rewrite <- fmap_cons, IH. f_equal. same_test.
    apply eq_true_iff_eq. rewrite !key_seen_true.
    rewrite fmap_cons. split; intros (r' & Hr' & Hrr'); exists r'; (split; [|done]);
      rewrite ?elem_of_app, ?elem_of_cons in *; tauto.
Qed.

Lemma find_duplicate_rows_loop_sublist h seen records :
  sublist (find_duplicate_rows_loop h seen records) records.
Proof.
  revert seen. induction records as [|a rest IH]; intros seen; simpl; [done|].
  destruct (existsb _ _); [apply sublist_skip|apply sublist_cons]; apply IH.
Qed.

Lemma find_duplicate_rows_cases h records r :
  (find_duplicate_rows h (records ++ [r]) = find_duplicate_rows h records ++ [r]
   ∧ ∃ l, l ∈ records ∧ same_row (deref h l) (deref h r))
  ∨ (find_duplicate_rows h (records ++ [r]) = find_duplicate_rows h records
     ∧ ∀ l, l ∈ records → ¬ same_row (deref h l) (deref h r)).
Proof.
  unfold find_duplicate_rows.
  pose proof (find_duplicate_rows_loop_snoc h [] records r) as H.
  rewrite fmap_nil, app_nil_r in H. rewrite H.
  destruct (existsb _ _) eqn:E.
  - left. split; [done|].
    apply key_seen_true in E as (r' & (l & -> & Hl)%list_elem_of_fmap & Hsame).
    exists l. split; [done|]. by apply same_row_sym.
  - right. rewrite app_nil_r. split; [done|]. intros l Hl Hsame.
    apply not_true_iff_false in E. destruct E. apply key_seen_true.
    exists (deref h l). split; [|by apply same_row_sym].
    apply list_elem_of_fmap. eauto.
Qed.

(** [find_duplicate_rows] reports, in order, every record that equals a
    record before it in the list, two records being equal when they have the
    same fields with equal values: reading one more record reports it exactly
    when the list read so far holds its equal.  So every reported record has
    an equal earlier in the list, and nothing is reported exactly when no two
    records of the list are equal. *)
Theorem find_duplicate_rows_spec (h : store) (records : list loc) (r : loc) :
  sublist (find_duplicate_rows h records) records
  ∧ ((∃ l, l ∈ records ∧ same_row (deref h l) (deref h r)) →
     find_duplicate_rows h (records ++ [r]) = find_duplicate_rows h records ++ [r])
  ∧ ((∀ l, l ∈ records → ¬ same_row (deref h l) (deref h r)) →
     find_duplicate_rows h (records ++ [r]) = find_duplicate_rows h records)
  ∧ (∀ l, l ∈ find_duplicate_rows h records →
       ∃ i j l', (i < j)%nat ∧ records !! i = Some l' ∧ records !! j = Some l
                 ∧ same_row (deref h l') (deref h l))
  ∧ (find_duplicate_rows h records = [] ↔
       ∀ i j l l', (i < j)%nat → records !! i = Some l → records !! j = Some l' →
         ¬ same_row (deref h l) (deref h l')).
Proof.
  split; [apply find_duplicate_rows_loop_sublist|]. split; [|split; [|split]].
  - intros Hex. destruct (find_duplicate_rows_cases h records r) as [[? _]|[_ Hnone]];
      [done|]. destruct Hex as (l & Hl & Hsame). by destruct (Hnone l Hl).
  - intros Hnone. destruct (find_duplicate_rows_cases h records r)
      as [[_ (l & Hl & Hsame)]|[? _]]; [|done]. by destruct (Hnone l Hl).
  - clear r. induction records as [|r records IH] using rev_ind.
    { by intros l ?%elem_of_nil. }
    intros l Hl.
    assert (l ∈ find_duplicate_rows h records →
      ∃ i j l', (i < j)%nat ∧ (records ++ [r]) !! i = Some l'
        ∧ (records ++ [r]) !! j = Some l ∧ same_row (deref h l') (deref h l)) as Hold.
    { intros (i & j & l' & Hij & Hi & Hj & Hsame)%IH. exists i, j, l'.
      repeat split; try done; by apply lookup_app_l_Some. }
    destruct (find_duplicate_rows_cases h records r)
      as [[E (l' & Hl' & Hsame)]|[E _]]; rewrite E in Hl; [|by apply Hold].
    apply elem_of_app in Hl as [Hl|Hl%list_elem_of_singleton]; [by apply Hold|]. subst l.
    apply list_elem_of_lookup in Hl' as [i Hi].
    exists i, (length records), l'. split; [by eapply lookup_lt_Some|].
    split; [by apply lookup_app_l_Some|]. split; [|done].
    by rewrite list_lookup_middle.
  - clear r. induction records as [|r records IH] using rev_ind.
    { split; [|done]. by intros _ i j l l' _ ?. }
    destruct (find_duplicate_rows_cases h records r)
      as [[E (l & Hl & Hsame)]|[E Hnone]]; rewrite E.
    + split; [by intros [_ ?]%app_eq_nil|]. intros Hall. exfalso.
      apply list_elem_of_lookup in Hl as [i Hi].
      apply (Hall i (length records) l r); try done.
      * by eapply lookup_lt_Some.
      * by apply lookup_app_l_Some.
      * by rewrite list_lookup_middle.
    + rewrite IH. split.
      * intros Hall i j l l' Hij Hi Hj.
        destruct (decide (j < length records)%nat) as [Hlt|Hge].
        -- rewrite lookup_app_l in Hi, Hj by lia. by apply (Hall i j l l').
        -- pose proof (lookup_lt_Some _ _ _ Hj) as Hj'.
           rewrite length_app in Hj'. simpl in Hj'.
           assert (j = length records) as -> by lia.
           rewrite list_lookup_middle in Hj by done. simplify_eq.
           rewrite lookup_app_l in Hi by lia.
           apply Hnone. by eapply list_elem_of_lookup_2.
      * intros Hall i j l l' Hij Hi Hj.
        apply (Hall i j l l'); try done; by apply lookup_app_l_Some.
Qed.
